(** * A shallow embedding of [model.py]: a WANN-like network with
      straight-through discretisation.

    Tensors hold exact real numbers ([R]); rounding, overflow and the
    special values of machine floats are outside this development, with
    one exception: the quotient computed by
    [MultiActivationModule.clip_weight] is evaluated in the extended
    values [fl], because its divisor can be zero.

    Tensors carry their shape explicitly next to their data, so that the
    shape checks of the tensor library (matrix product, broadcasting,
    concatenation) are decided on the declared shape, also for an empty
    batch. *)

From Stdlib Require Import String Reals Lra Lia Arith Bool List.
Import ListNotations.

Local Open Scope R_scope.

(** ** Exceptions and the result monad *)

Inductive exn : Type :=
| IndexError      (* indexing past the end of a tuple *)
| MatmulShape     (* last dimension of the input differs from [n_in] *)
| BroadcastShape  (* two sizes that are different and both not 1 *)
| CatRank         (* torch.cat on tensors of different rank *)
| CatShape.       (* torch.cat on tensors whose other sizes differ *)

Inductive result (A : Type) : Type :=
| Ok (a : A)
| Raise (e : exn).

Arguments Ok {A} a.
Arguments Raise {A} e.

Definition bind {A B : Type} (r : result A) (k : A -> result B) : result B :=
  match r with
  | Ok a => k a
  | Raise e => Raise e
  end.

Notation "x <- r ;; k" := (bind r (fun x => k))
  (at level 61, r at next level, right associativity).

(** ** Vectors, matrices and tensors *)

Definition vec := list R.
Definition mat := list vec.

Fixpoint zip_with {A B C : Type} (f : A -> B -> C) (u : list A) (v : list B)
  : list C :=
  match u, v with
  | a :: u', b :: v' => f a b :: zip_with f u' v'
  | _, _ => []
  end.

Definition sum (v : vec) : R := fold_left Rplus v 0.

Definition dot (u v : vec) : R := sum (zip_with Rmult u v).

Definition zeros (n : nat) : vec := repeat 0 n.

Definition column (j : nat) (w : mat) : vec := map (fun row => nth j row 0) w.

Definition rows_ok (b n : nat) (d : list vec) : Prop :=
  length d = b /\ Forall (fun r => length r = n) d.

(** A tensor of rank 2, [b, n], or of rank 3, [k, b, n]: the declared
    sizes and the rows.  The last dimension is the feature dimension. *)
Inductive tensor : Type :=
| T2 (b n : nat) (d : list vec)
| T3 (k b n : nat) (d : list (list vec)).

Definition wf_tensor (t : tensor) : Prop :=
  match t with
  | T2 b n d => rows_ok b n d
  | T3 k b n d => length d = k /\ Forall (rows_ok b n) d
  end.

Definition shape (t : tensor) : list nat :=
  match t with
  | T2 b n _ => [b; n]
  | T3 k b n _ => [k; b; n]
  end.

Definition width (t : tensor) : nat :=
  match t with
  | T2 _ n _ => n
  | T3 _ _ n _ => n
  end.

(** Apply [f] to every row; [n'] is the size of the new last dimension. *)
Definition map_rows (n' : nat) (f : vec -> vec) (t : tensor) : tensor :=
  match t with
  | T2 b _ d => T2 b n' (map f d)
  | T3 k b _ d => T3 k b n' (map (map f) d)
  end.

(** Size of a dimension after broadcasting sizes [n] and [m]. *)
Definition broadcast_size (n m : nat) : result nat :=
  if (n =? m)%nat then Ok n
  else if (n =? 1)%nat then Ok m
  else if (m =? 1)%nat then Ok n
  else Raise BroadcastShape.

(** Elementwise binary operation on two rows, a row of length 1 being
    repeated (the sizes were checked by [broadcast_size]). *)
Definition broadcast_row (f : R -> R -> R) (u v : vec) : vec :=
  if (length u =? length v)%nat then zip_with f u v
  else if (length u =? 1)%nat then map (f (hd 0 u)) v
  else map (fun a => f a (hd 0 v)) u.

(** ** Elementwise functions of the tensor library *)

(** [torch.nn.functional.hardshrink]: zero inside [-lambd, lambd]. *)
Definition hardshrink (lambd x : R) : R :=
  if Rle_dec (- lambd) x then (if Rle_dec x lambd then 0 else x) else x.

(** [torch.sign]. *)
Definition sign (x : R) : R :=
  if Rlt_dec 0 x then 1 else if Rlt_dec x 0 then -1 else 0.

(** [torch.nn.functional.hardtanh] with its default bounds -1 and 1. *)
Definition hardtanh (x : R) : R := Rmin (Rmax x (-1)) 1.

Definition relu (x : R) : R := Rmax 0 x.

Definition sigmoid (x : R) : R := 1 / (1 + exp (- x)).

(** [lambda x: torch.exp(-torch.square(x) / 2.0)] *)
Definition gaussian (x : R) : R := exp (- (x * x) / 2).

(** [lambda t: (t > 0.0) * 1.0] *)
Definition step (t : R) : R := (if Rlt_dec 0 t then 1 else 0) * 1.

(** [torch.nn.Softmax(dim=-1)] on one row. *)
Definition softmax_row (r : vec) : vec :=
  let e := map exp r in map (fun a => a / sum e) e.

(** ** Extended values: the result of a division whose divisor may be zero *)

Inductive fl : Type :=
| Num (r : R)
| PInf
| NInf
| NaN.

Definition fadd (a b : fl) : fl :=
  match a, b with
  | NaN, _ | _, NaN => NaN
  | Num x, Num y => Num (x + y)
  | PInf, NInf | NInf, PInf => NaN
  | PInf, _ | _, PInf => PInf
  | NInf, _ | _, NInf => NInf
  end.

Definition fsquare (a : fl) : fl :=
  match a with
  | Num x => Num (x * x)
  | PInf | NInf => PInf
  | NaN => NaN
  end.

Definition fsqrt (a : fl) : fl :=
  match a with
  | Num x => if Rlt_dec x 0 then NaN else Num (sqrt x)
  | PInf => PInf
  | NInf | NaN => NaN
  end.

(** Division; a zero divisor is the positive zero (it is a norm here). *)
Definition fdiv (a b : fl) : fl :=
  match a, b with
  | NaN, _ | _, NaN => NaN
  | Num x, Num y =>
      if Req_dec_T y 0
      then (if Req_dec_T x 0 then NaN else if Rlt_dec 0 x then PInf else NInf)
      else Num (x / y)
  | Num _, _ => Num 0
  | PInf, Num y => if Rlt_dec y 0 then NInf else PInf
  | NInf, Num y => if Rlt_dec y 0 then PInf else NInf
  | _, _ => NaN
  end.

Definition fvec := list fl.
Definition fmat := list fvec.

Definition lift (w : mat) : fmat := map (map Num) w.

Definition finite (a : fl) : option R :=
  match a with
  | Num x => Some x
  | _ => None
  end.

Fixpoint finite_vec (v : fvec) : option vec :=
  match v with
  | [] => Some []
  | a :: v' =>
      match finite a, finite_vec v' with
      | Some x, Some r => Some (x :: r)
      | _, _ => None
      end
  end.

Fixpoint finite_mat (w : fmat) : option mat :=
  match w with
  | [] => Some []
  | v :: w' =>
      match finite_vec v, finite_mat w' with
      | Some r, Some m => Some (r :: m)
      | _, _ => None
      end
  end.

Definition fcolumn (j : nat) (w : fmat) : fvec :=
  map (fun row => nth j row (Num 0)) w.

(** [torch.norm(w, dim=0)] at column [j]: the L2 norm along dimension 0.
    The sum of the squares and the square root are exact on finite
    entries: the overflow and the underflow of a norm in machine floats
    are not modelled. *)
Definition fnorm (col : fvec) : fl :=
  fsqrt (fold_left fadd (map fsquare col) (Num 0)).

(** ** The capability [Discretizable] *)

Module Discretizable.

(** A layer of type [L] with a weight tensor of type [W].  [with_weight]
    and [with_stored_weight] are the in-place [copy_] into the two
    tensors (the source always has the shape of the destination).
    [clip_weight] answers [None] when the clipped weight is not a tensor
    of finite reals. *)
Class t (L W : Type) : Type := {
  weight : L -> W;
  stored_weight : L -> W;
  with_weight : W -> L -> L;
  with_stored_weight : W -> L -> L;
  effective_weight : L -> W;
  clip_weight : L -> option L
}.

Section Methods.
Context {L W : Type} `{t L W}.

Definition store_weight (self : L) : L :=
  with_stored_weight (weight self) self.

Definition discretize_weight (self : L) : L :=
  let self := store_weight self in
  with_weight (effective_weight self) self.

Definition restore_weight (self : L) : L :=
  with_weight (stored_weight self) self.
End Methods.

(** The method [clip_weight] as the class defines it, for a layer whose
    weight is read by [get] and overwritten by [set]. *)
Definition hardtanh_weight {L : Type} (get : L -> mat) (set : mat -> L -> L)
  (self : L) : option L :=
  Some (set (map (map hardtanh) (get self)) self).

(** What both layers satisfy: the two tensors of a layer are distinct
    objects, and the effective weight reads the weight only. *)
Class Laws (L W : Type) `{t L W} : Prop := {
  weight_with_weight : forall w l, weight (with_weight w l) = w;
  stored_with_stored : forall w l, stored_weight (with_stored_weight w l) = w;
  weight_with_stored : forall w l, weight (with_stored_weight w l) = weight l;
  stored_with_weight :
    forall w l, stored_weight (with_weight w l) = stored_weight l;
  effective_with_stored :
    forall w l, effective_weight (with_stored_weight w l) = effective_weight l
}.

End Discretizable.

Definition tabulate {A : Type} (n : nat) (f : nat -> A) : list A :=
  map f (seq 0 n).

Definition enumerate {A : Type} (l : list A) : list (nat * A) :=
  combine (seq 0 (length l)) l.

(** ** [MultiActivationModule] *)

Module MultiActivationModule.

Definition available_act_functions : list (string * (R -> R)) :=
  [ ("relu"%string, relu);
    ("sigmoid"%string, sigmoid);
    ("tanh"%string, tanh);
    ("gaussian (standard)"%string, gaussian);
    ("step"%string, step) ].

Definition funcs : list (R -> R) := map snd available_act_functions.

Definition n_funcs : nat := length funcs.

Record t : Type := mk {
  n_out : nat;
  weight : mat;          (* of shape [n_funcs, n_out] *)
  stored_weight : mat    (* of the same shape *)
}.

Definition wf (m : t) : Prop :=
  rows_ok n_funcs (n_out m) (weight m) /\
  rows_ok n_funcs (n_out m) (stored_weight m).

(** [__init__]: the weight is zero, the stored weight is whatever
    [torch.empty_like] finds in memory, here [junk]. *)
Definition init (n_out : nat) (junk : nat -> nat -> R) : t :=
  {| n_out := n_out;
     weight := repeat (zeros n_out) n_funcs;
     stored_weight := tabulate n_funcs (fun i => tabulate n_out (junk i)) |}.

Definition with_weight (w : mat) (m : t) : t :=
  {| n_out := n_out m; weight := w; stored_weight := stored_weight m |}.

Definition with_stored_weight (w : mat) (m : t) : t :=
  {| n_out := n_out m; weight := weight m; stored_weight := w |}.

(** [self.weight.data / torch.norm(self.weight.data, dim=0).unsqueeze(dim=0)]
    on a weight of [n] columns. *)
Definition normalized (n : nat) (w : fmat) : fmat :=
  let norms := tabulate n (fun j => fnorm (fcolumn j w)) in
  map (fun row => zip_with fdiv row norms) w.

Definition clip_weight (m : t) : option t :=
  match finite_mat (normalized (n_out m) (lift (weight m))) with
  | Some w => Some (with_weight w m)
  | None => None
  end.

(** Index of the maximum of a column, as [torch.max(_, 0).indices] finds
    it: the scan keeps the running maximum and moves only to a strictly
    greater value. *)
Fixpoint argmax_from (best : R) (best_i i : nat) (l : vec) : nat :=
  match l with
  | [] => best_i
  | v :: l' =>
      if Rle_dec v best then argmax_from best best_i (S i) l'
      else argmax_from v i (S i) l'
  end.

Definition argmax (l : vec) : nat :=
  match l with
  | [] => 0%nat
  | v :: l' => argmax_from v 0 1 l'
  end.

(** [torch.nn.functional.one_hot(indices, num_classes)], as floats. *)
Definition one_hot (indices : list nat) (num_classes : nat) : mat :=
  map (fun idx =>
         tabulate num_classes (fun c => if (c =? idx)%nat then 1 else 0))
      indices.

(** [.T] of a matrix of shape [n, m]. *)
Definition transpose (m : nat) (w : mat) : mat :=
  tabulate m (fun i => column i w).

Definition effective_weight (m : t) : mat :=
  let indices := tabulate (n_out m) (fun j => argmax (column j (weight m))) in
  transpose n_funcs (one_hot indices n_funcs).

(** One step of the [reduce]: [first + act(x) * coefficients[i, :]]. *)
Definition accumulate (coefficients : mat) (x : vec) (first : vec)
  (act : nat * (R -> R)) : vec :=
  broadcast_row Rplus first
    (broadcast_row Rmult (map (snd act) x) (nth (fst act) coefficients [])).

(** The [reduce] of [forward] on one row of the input; every operand has
    the leading dimensions of [x], so the tensor operations act row by
    row. *)
Definition forward_row (coefficients : mat) (x : vec) : vec :=
  fold_left (accumulate coefficients x) (enumerate funcs)
    (zeros (length x)).

Definition forward (m : t) (x : tensor) : result tensor :=
  n <- broadcast_size (width x) (n_out m) ;;
  n' <- broadcast_size (width x) n ;;
  Ok (map_rows n' (forward_row (weight m)) x).

End MultiActivationModule.

#[export] Instance MultiActivationModule_Discretizable
  : Discretizable.t MultiActivationModule.t mat := {|
  Discretizable.weight := MultiActivationModule.weight;
  Discretizable.stored_weight := MultiActivationModule.stored_weight;
  Discretizable.with_weight := MultiActivationModule.with_weight;
  Discretizable.with_stored_weight := MultiActivationModule.with_stored_weight;
  Discretizable.effective_weight := MultiActivationModule.effective_weight;
  Discretizable.clip_weight := MultiActivationModule.clip_weight
|}.

(** ** [TertiaryLinear] *)

Module TertiaryLinear.

Record t : Type := mk {
  n_in : nat;
  n_out : nat;
  weight : mat;          (* [self.linear.weight], of shape [n_out, n_in] *)
  stored_weight : mat    (* of the same shape *)
}.

Definition wf (l : t) : Prop :=
  rows_ok (n_out l) (n_in l) (weight l) /\
  rows_ok (n_out l) (n_in l) (stored_weight l).

(** [__init__]: [drawn] is the weight that [torch.nn.Linear] draws,
    [junk] the content that [torch.empty_like] finds. *)
Definition init (n_in n_out : nat) (drawn junk : nat -> nat -> R) : t :=
  {| n_in := n_in;
     n_out := n_out;
     weight := tabulate n_out (fun i => tabulate n_in (drawn i));
     stored_weight := tabulate n_out (fun i => tabulate n_in (junk i)) |}.

Definition with_weight (w : mat) (l : t) : t :=
  {| n_in := n_in l; n_out := n_out l; weight := w;
     stored_weight := stored_weight l |}.

Definition with_stored_weight (w : mat) (l : t) : t :=
  {| n_in := n_in l; n_out := n_out l; weight := weight l;
     stored_weight := w |}.

Definition effective_weight (l : t) : mat :=
  map (map (fun x => sign (hardshrink 0.4 x))) (weight l).

(** [self.linear(x)]: every row times the transposed weight, no bias. *)
Definition forward (l : t) (x : tensor) : result tensor :=
  if (width x =? n_in l)%nat
  then Ok (map_rows (n_out l) (fun r => map (dot r) (weight l)) x)
  else Raise MatmulShape.

End TertiaryLinear.

#[export] Instance TertiaryLinear_Discretizable
  : Discretizable.t TertiaryLinear.t mat := {|
  Discretizable.weight := TertiaryLinear.weight;
  Discretizable.stored_weight := TertiaryLinear.stored_weight;
  Discretizable.with_weight := TertiaryLinear.with_weight;
  Discretizable.with_stored_weight := TertiaryLinear.with_stored_weight;
  Discretizable.effective_weight := TertiaryLinear.effective_weight;
  Discretizable.clip_weight :=
    Discretizable.hardtanh_weight TertiaryLinear.weight
      TertiaryLinear.with_weight
|}.

(** ** [ConcatLayer] *)

(** [t * shared_weight[:, None, None]]: the indexed shared weight has
    shape [len, 1, 1], so the product has rank 3 whatever the rank of [t];
    its first dimension is broadcast against [len]. *)
Definition mul_shared (t : tensor) (shared_weight : vec) : result tensor :=
  let scale (s : R) (m : list vec) := map (map (fun a => a * s)) m in
  let len := length shared_weight in
  match t with
  | T2 b n d => Ok (T3 len b n (map (fun s => scale s d) shared_weight))
  | T3 k b n d =>
      if (k =? len)%nat
      then Ok (T3 k b n (zip_with (fun m s => scale s m) d shared_weight))
      else if (k =? 1)%nat
      then Ok (T3 len b n (map (fun s => scale s (hd [] d)) shared_weight))
      else if (len =? 1)%nat
      then Ok (T3 k b n (map (scale (hd 0 shared_weight)) d))
      else Raise BroadcastShape
  end.

(** [torch.cat([x, y], dim=-1)] *)
Definition cat_last (x y : tensor) : result tensor :=
  match x, y with
  | T2 b n d, T2 b' n' d' =>
      if (b =? b')%nat
      then Ok (T2 b (n + n') (zip_with (@app R) d d'))
      else Raise CatShape
  | T3 k b n d, T3 k' b' n' d' =>
      if ((k =? k') && (b =? b'))%nat
      then Ok (T3 k b (n + n') (zip_with (zip_with (@app R)) d d'))
      else Raise CatShape
  | _, _ => Raise CatRank
  end.

Module ConcatLayer.

(** The layer holds a reference to the shared weight, a tensor of rank 1
    that its owner updates in place; [forward] receives the content the
    reference has at the time of the call. *)
Record t : Type := mk {
  linear : TertiaryLinear.t;
  activation : MultiActivationModule.t
}.

Definition wf (c : t) : Prop :=
  TertiaryLinear.wf (linear c) /\
  MultiActivationModule.wf (activation c) /\
  MultiActivationModule.n_out (activation c) = TertiaryLinear.n_out (linear c).

Definition init (n_in n_out : nat) (drawn junk junk' : nat -> nat -> R) : t :=
  {| linear := TertiaryLinear.init n_in n_out drawn junk;
     activation := MultiActivationModule.init n_out junk' |}.

Definition forward (c : t) (shared_weight : vec) (x : tensor)
  : result tensor :=
  lin <- TertiaryLinear.forward (linear c) x ;;
  lin' <- mul_shared lin shared_weight ;;
  inner_out <- MultiActivationModule.forward (activation c) lin' ;;
  cat_last x inner_out.

End ConcatLayer.

(** ** [weight_init] *)

(** [weight_init(m)] for a [TertiaryLinear]: [torch.nn.init.normal_] fills
    the weight with samples, [draw i j] being the sample for the entry
    [i, j]. *)
Definition weight_init_linear (draw : nat -> nat -> R) (l : TertiaryLinear.t)
  : TertiaryLinear.t :=
  TertiaryLinear.with_weight
    (tabulate (TertiaryLinear.n_out l)
       (fun i => tabulate (TertiaryLinear.n_in l) (draw i))) l.

(** [weight_init(m)] for a [MultiActivationModule]: [torch.nn.init.uniform_]
    fills the weight with samples of the interval from 0 to 1. *)
Definition weight_init_activation (draw : nat -> nat -> R)
  (m : MultiActivationModule.t) : MultiActivationModule.t :=
  MultiActivationModule.with_weight
    (tabulate MultiActivationModule.n_funcs
       (fun i => tabulate (MultiActivationModule.n_out m) (draw i))) m.

(** ** [Model] *)

Module Model.

Record t : Type := mk {
  layer_sizes : list nat;
  network : list ConcatLayer.t
}.

(** What the constructor draws or finds in memory for the block with
    index [i]: the weight of its linear layer and the content of the two
    stored weights. *)
Record entropy : Type := {
  drawn : nat -> nat -> nat -> R;
  junk_linear : nat -> nat -> nat -> R;
  junk_activation : nat -> nat -> nat -> R
}.

(** The loop of [__init__] from the block with index [i] on. *)
Fixpoint layers (e : entropy) (i n_in : nat) (sizes : list nat)
  : list ConcatLayer.t :=
  match sizes with
  | [] => []
  | n_out :: sizes' =>
      ConcatLayer.init n_in n_out
        (drawn e i) (junk_linear e i) (junk_activation e i)
      :: layers e (S i) (n_in + n_out) sizes'
  end.

(** [__init__]; [layer_sizes[0]] raises on the empty tuple. *)
Definition init (e : entropy) (layer_sizes : list nat) : result t :=
  match layer_sizes with
  | [] => Raise IndexError
  | n_in :: rest =>
      Ok {| layer_sizes := layer_sizes; network := layers e 0 n_in rest |}
  end.

Definition n_in (m : t) : nat := hd 0%nat (layer_sizes m).

Definition n_out (m : t) : nat := last (layer_sizes m) 0%nat.

(** [torch.nn.Sequential]: the blocks one after the other. *)
Fixpoint sequential (blocks : list ConcatLayer.t) (shared_weight : vec)
  (x : tensor) : result tensor :=
  match blocks with
  | [] => Ok x
  | c :: blocks' =>
      y <- ConcatLayer.forward c shared_weight x ;;
      sequential blocks' shared_weight y
  end.

(** [t[..., -n:]]: a start before the first column is the first column,
    and [-0] is [0]. *)
Definition last_columns (n : nat) (t : tensor) : tensor :=
  let n' := if (n =? 0)%nat then width t else Nat.min n (width t) in
  map_rows n' (fun r => if (n =? 0)%nat then r else skipn (length r - n) r) t.

Definition forward (m : t) (shared_weight : vec) (x : tensor)
  : result tensor :=
  net_out <- sequential (network m) shared_weight x ;;
  let net_out := last_columns (n_out m) net_out in
  Ok (map_rows (width net_out) softmax_row net_out).

(** [self.apply(f)] reaches every module of the tree; only the two
    layers of each block have the methods of [Discretizable]. *)
Definition apply (f : TertiaryLinear.t -> TertiaryLinear.t)
  (g : MultiActivationModule.t -> MultiActivationModule.t) (m : t) : t :=
  {| layer_sizes := layer_sizes m;
     network :=
       map (fun c => {| ConcatLayer.linear := f (ConcatLayer.linear c);
                        ConcatLayer.activation := g (ConcatLayer.activation c) |})
           (network m) |}.

Definition discretize : t -> t :=
  apply Discretizable.discretize_weight Discretizable.discretize_weight.

Definition restore : t -> t :=
  apply Discretizable.restore_weight Discretizable.restore_weight.

(** [self.apply(clip_weight)] on the blocks: [None] as soon as the clipped
    weight of a layer is not a tensor of finite reals. *)
Fixpoint clip_blocks (blocks : list ConcatLayer.t)
  : option (list ConcatLayer.t) :=
  match blocks with
  | [] => Some []
  | c :: blocks' =>
      match Discretizable.clip_weight (ConcatLayer.linear c),
            Discretizable.clip_weight (ConcatLayer.activation c),
            clip_blocks blocks' with
      | Some l, Some a, Some r =>
          Some ({| ConcatLayer.linear := l; ConcatLayer.activation := a |} :: r)
      | _, _, _ => None
      end
  end.

Definition clip (m : t) : option t :=
  match clip_blocks (network m) with
  | Some blocks => Some {| layer_sizes := layer_sizes m; network := blocks |}
  | None => None
  end.

(** The samples of [init_weights] for the block with index [i]: [normal]
    for the weight of its linear layer, [uniform] for the weight of its
    activation layer. *)
Record samples : Type := {
  normal : nat -> nat -> nat -> R;
  uniform : nat -> nat -> nat -> R
}.

(** [weight_init] on the blocks from the block with index [i] on. *)
Fixpoint init_blocks (s : samples) (i : nat) (blocks : list ConcatLayer.t)
  : list ConcatLayer.t :=
  match blocks with
  | [] => []
  | c :: blocks' =>
      {| ConcatLayer.linear :=
           weight_init_linear (normal s i) (ConcatLayer.linear c);
         ConcatLayer.activation :=
           weight_init_activation (uniform s i) (ConcatLayer.activation c) |}
      :: init_blocks s (S i) blocks'
  end.

Definition init_weights (s : samples) (m : t) : t :=
  {| layer_sizes := layer_sizes m; network := init_blocks s 0 (network m) |}.

End Model.

(** ** [write_hist] *)

(** One call of [writer.add_histogram(tag, values, global_step)]. *)
Record histogram : Type := {
  tag : string;
  values : vec;
  global_step : nat
}.

(** [w.reshape(-1)] on a matrix: its rows one after the other. *)
Definition flatten (w : mat) : vec := concat w.

(** [torch.cat] on a list of tensors of rank 1; it raises on the empty
    list, which is [None] here. *)
Definition cat_flat (l : list vec) : option vec :=
  match l with
  | [] => None
  | _ => Some (concat l)
  end.

(** [write_hist(writer, model, epoch)]; the writer is the list of the
    histograms it has received. *)
Definition write_hist (writer : list histogram) (model : Model.t) (epoch : nat)
  : option (list histogram) :=
  let effective_weights :=
    map (fun c => flatten (TertiaryLinear.effective_weight (ConcatLayer.linear c)))
        (Model.network model) in
  let actual_weights :=
    map (fun c => flatten (TertiaryLinear.weight (ConcatLayer.linear c)))
        (Model.network model) in
  match cat_flat effective_weights with
  | None => None
  | Some e =>
      let writer :=
        writer ++ [{| tag := "effective weights"; values := e;
                      global_step := epoch |}] in
      match cat_flat actual_weights with
      | None => None
      | Some a =>
          Some (writer ++ [{| tag := "actual weights"; values := a;
                              global_step := epoch |}])
      end
  end.

(** ** Definitions used to state the properties *)

(** The weights of every block of a network, in order. *)
Definition weights (m : Model.t) : list (mat * mat) :=
  map (fun c => (TertiaryLinear.weight (ConcatLayer.linear c),
                 MultiActivationModule.weight (ConcatLayer.activation c)))
      (Model.network m).

(** The network has the widths that [Model.__init__] gives it from the
    input width [n_in] and the output widths [sizes]; its weights are any
    tensors of the shapes of the constructor. *)
Fixpoint chained (n_in : nat) (sizes : list nat) (net : list ConcatLayer.t)
  : Prop :=
  match sizes, net with
  | [], [] => True
  | n_out :: sizes', c :: net' =>
      ConcatLayer.wf c /\
      TertiaryLinear.n_in (ConcatLayer.linear c) = n_in /\
      TertiaryLinear.n_out (ConcatLayer.linear c) = n_out /\
      chained (n_in + n_out) sizes' net'
  | _, _ => False
  end.

Definition built (sizes : list nat) (m : Model.t) : Prop :=
  Model.layer_sizes m = sizes /\
  match sizes with
  | [] => False
  | n_in :: rest => chained n_in rest (Model.network m)
  end.

(** A source of initial values that is zero everywhere. *)
Definition zero_entropy : Model.entropy :=
  {| Model.drawn := fun _ _ _ => 0;
     Model.junk_linear := fun _ _ _ => 0;
     Model.junk_activation := fun _ _ _ => 0 |}.

(** The menu of activation functions in the words of the specification. *)
Definition menu : list (R -> R) :=
  [ fun x => Rmax 0 x;
    fun x => 1 / (1 + exp (- x));
    tanh;
    fun x => exp (- (x * x) / 2);
    fun x => if Rlt_dec 0 x then 1 else 0 ].

(** The mixture in the words of the specification: at channel [c], the sum
    over the functions [f_i] of the menu of [f_i (x_c) * w[i, c]]. *)
Definition mixture_spec (w : mat) (x : vec) : vec :=
  tabulate (length x)
    (fun c => sum (tabulate (length menu)
                     (fun i => nth i menu (fun a => a) (nth c x 0)
                               * nth c (nth i w []) 0))).

(** The function that the discretized mixture applies at every channel:
    the one of the menu at the first maximum of the column of the weight. *)
Definition selected (w : mat) (x : vec) : vec :=
  tabulate (length x)
    (fun c => nth (MultiActivationModule.argmax (column c w)) menu
                (fun a => a) (nth c x 0)).

(** The value 0, 1 or -1 that the effective weight gives to an entry. *)
Definition ternary (x : R) : R := sign (hardshrink 0.4 x).

(** The sum of the squares of a column. *)
Definition sum_squares (col : vec) : R := sum (map (fun x => x * x) col).

Ltac case_cmp :=
  repeat match goal with
         | |- context [Rle_dec ?a ?b] => destruct (Rle_dec a b)
         | |- context [Rlt_dec ?a ?b] => destruct (Rlt_dec a b)
         end.

(** [lia] after the abbreviations of list types are unfolded, so that equal
    lengths are syntactically equal. *)
Ltac list_lia := unfold vec, mat, fvec, fmat in *; lia.

(** * Properties *)

(** ** Lists *)

Lemma zip_with_length {A B C : Type} (f : A -> B -> C) (u : list A) (v : list B) :
  length (zip_with f u v) = Nat.min (length u) (length v).
Proof.
  revert v; induction u as [|a u IH]; intros [|b v]; simpl; auto.
Qed.

Lemma zip_with_nth {A B C : Type} (f : A -> B -> C) (u : list A) (v : list B)
  (i : nat) (da : A) (db : B) (dc : C) :
  (i < length u)%nat -> (i < length v)%nat ->
  nth i (zip_with f u v) dc = f (nth i u da) (nth i v db).
Proof.
  revert v i; induction u as [|a u IH]; intros [|b v] [|i]; simpl; try lia; auto.
  intros; apply IH; lia.
Qed.

Lemma tabulate_length {A : Type} (n : nat) (f : nat -> A) :
  length (tabulate n f) = n.
Proof. unfold tabulate; now rewrite length_map, length_seq. Qed.

Lemma tabulate_nth {A : Type} (n : nat) (f : nat -> A) (i : nat) (d : A) :
  (i < n)%nat -> nth i (tabulate n f) d = f i.
Proof.
  intros Hi; unfold tabulate.
  rewrite (nth_indep _ d (f 0%nat)) by now rewrite length_map, length_seq.
  rewrite map_nth, seq_nth; auto.
Qed.

Lemma column_length (j : nat) (w : mat) : length (column j w) = length w.
Proof. apply length_map. Qed.

Lemma column_nth (j i : nat) (w : mat) :
  nth i (column j w) 0 = nth j (nth i w []) 0.
Proof.
  revert i; induction w as [|row w IH]; intros [|i]; simpl; auto.
  - now destruct j.
  - now destruct j.
Qed.

(** ** The ternary projection *)

Lemma Rabs_le_iff (x a : R) : Rabs x <= a <-> - a <= x <= a.
Proof.
  unfold Rabs; destruct (Rcase_abs x); split; intros; lra.
Qed.

Lemma ternary_cases (x : R) :
  let e := sign (hardshrink 0.4 x) in
  (e = -1 \/ e = 0 \/ e = 1) /\
  (e = 0 <-> Rabs x <= 0.4) /\
  (0.4 < x -> e = 1) /\
  (x < - 0.4 -> e = -1).
Proof.
  cbv zeta; rewrite Rabs_le_iff.
  unfold sign, hardshrink; case_cmp; repeat split; intros; lra.
Qed.

Lemma Forall2_map_r {A B : Type} (P : A -> B -> Prop) (f : A -> B) (l : list A) :
  (forall a, P a (f a)) -> Forall2 P l (map f l).
Proof. intros HP; induction l; simpl; constructor; auto. Qed.

(** C2. Every entry of the effective weight of a [TertiaryLinear] layer is
    -1, 0 or 1; it is 0 exactly when the entry of the continuous weight
    has absolute value at most 0.4, it is 1 when that entry is above 0.4
    and -1 when it is below -0.4. *)
Theorem effective_weight_ternary (l : TertiaryLinear.t) :
  Forall2 (Forall2 (fun w e =>
                      (e = -1 \/ e = 0 \/ e = 1) /\
                      (e = 0 <-> Rabs w <= 0.4) /\
                      (0.4 < w -> e = 1) /\
                      (w < - 0.4 -> e = -1)))
    (TertiaryLinear.weight l) (TertiaryLinear.effective_weight l).
Proof.
  unfold TertiaryLinear.effective_weight.
  apply Forall2_map_r; intros row.
  apply Forall2_map_r; intros x.
  apply ternary_cases.
Qed.

(** ** Store, discretize, restore *)

#[export] Instance TertiaryLinear_Laws : Discretizable.Laws TertiaryLinear.t mat.
Proof. split; reflexivity. Qed.

#[export] Instance MultiActivationModule_Laws :
  Discretizable.Laws MultiActivationModule.t mat.
Proof. split; reflexivity. Qed.

Section Lifecycle.
Context {L W : Type} `{Discretizable.Laws L W}.
Import Discretizable.

Lemma store_weight_spec (l : L) :
  stored_weight (store_weight l) = weight l /\
  weight (store_weight l) = weight l.
Proof.
  unfold store_weight.
  now rewrite stored_with_stored, weight_with_stored.
Qed.

Lemma discretize_weight_spec (l : L) :
  stored_weight (discretize_weight l) = weight l /\
  weight (discretize_weight l) = effective_weight l.
Proof.
  unfold discretize_weight, store_weight; cbv zeta.
  rewrite stored_with_weight, stored_with_stored, weight_with_weight.
  now rewrite effective_with_stored.
Qed.

Lemma restore_discretize_weight (l : L) :
  weight (restore_weight (discretize_weight l)) = weight l.
Proof.
  unfold restore_weight.
  rewrite weight_with_weight.
  apply discretize_weight_spec.
Qed.

End Lifecycle.

(** C3. After [discretize_weight] on either layer, the stored weight is
    the weight the layer had and the weight is the effective weight
    computed from it; the forward pass of the layer then reads that
    overwritten weight. *)
Theorem discretize_weight_overwrites :
  (forall l : TertiaryLinear.t,
      let l' := Discretizable.discretize_weight l in
      TertiaryLinear.stored_weight l' = TertiaryLinear.weight l /\
      TertiaryLinear.weight l' = TertiaryLinear.effective_weight l /\
      forall x, TertiaryLinear.forward l' x =
                TertiaryLinear.forward
                  (TertiaryLinear.with_weight (TertiaryLinear.effective_weight l) l) x) /\
  (forall m : MultiActivationModule.t,
      let m' := Discretizable.discretize_weight m in
      MultiActivationModule.stored_weight m' = MultiActivationModule.weight m /\
      MultiActivationModule.weight m' = MultiActivationModule.effective_weight m /\
      forall x, MultiActivationModule.forward m' x =
                MultiActivationModule.forward
                  (MultiActivationModule.with_weight
                     (MultiActivationModule.effective_weight m) m) x).
Proof.
  split; intros l; cbv zeta.
  - destruct (discretize_weight_spec l) as [Hs Hw].
    repeat split; try assumption; intros x; reflexivity.
  - destruct (discretize_weight_spec l) as [Hs Hw].
    repeat split; try assumption; intros x; reflexivity.
Qed.

(** C4. [discretize_weight] followed by [restore_weight] leaves the weight
    of either layer as it was, and so [Model.discretize] followed by
    [Model.restore] leaves every weight of the network as it was. *)
Theorem discretize_then_restore :
  (forall l : TertiaryLinear.t,
      TertiaryLinear.weight
        (Discretizable.restore_weight (Discretizable.discretize_weight l))
      = TertiaryLinear.weight l) /\
  (forall m : MultiActivationModule.t,
      MultiActivationModule.weight
        (Discretizable.restore_weight (Discretizable.discretize_weight m))
      = MultiActivationModule.weight m) /\
  (forall m : Model.t,
      weights (Model.restore (Model.discretize m)) = weights m).
Proof.
  split; [|split].
  - intros l; exact (restore_discretize_weight l).
  - intros m; exact (restore_discretize_weight m).
  - intros [sizes net]; unfold weights, Model.restore, Model.discretize, Model.apply.
    simpl; rewrite !map_map; apply map_ext; intros c; reflexivity.
Qed.

(** ** The mixture of activation functions *)

Lemma broadcast_row_same (f : R -> R -> R) (u v : vec) :
  length u = length v -> broadcast_row f u v = zip_with f u v.
Proof.
  intros Hl; unfold broadcast_row.
  now rewrite Hl, Nat.eqb_refl.
Qed.

Lemma zeros_nth (n c : nat) : nth c (zeros n) 0 = 0.
Proof.
  unfold zeros; revert c; induction n; intros [|c]; simpl; auto.
Qed.

Lemma map_nth_0 (f : R -> R) (x : vec) (c : nat) :
  (c < length x)%nat -> nth c (map f x) 0 = f (nth c x 0).
Proof.
  intros Hc; rewrite (nth_indep _ 0 (f 0)) by now rewrite length_map.
  apply map_nth.
Qed.

Lemma rows_ok_five (n : nat) (w : mat) :
  rows_ok MultiActivationModule.n_funcs n w ->
  exists w0 w1 w2 w3 w4,
    w = [w0; w1; w2; w3; w4] /\
    length w0 = n /\ length w1 = n /\ length w2 = n /\
    length w3 = n /\ length w4 = n.
Proof.
  intros [Hl Hr].
  do 5 (destruct w as [|? w]; [discriminate Hl|]).
  destruct w; [|discriminate Hl].
  repeat match goal with
         | H : Forall _ (_ :: _) |- _ => inversion H; subst; clear H
         end.
  do 5 eexists; repeat split; eauto.
Qed.

Lemma forward_row_mixture (w : mat) (x : vec) :
  rows_ok MultiActivationModule.n_funcs (length x) w ->
  MultiActivationModule.forward_row w x = mixture_spec w x.
Proof.
  intros Hw.
  destruct (rows_ok_five _ _ Hw) as (w0 & w1 & w2 & w3 & w4 & -> & H0 & H1 & H2 & H3 & H4).
  unfold MultiActivationModule.forward_row, MultiActivationModule.accumulate.
  simpl fold_left.
  assert (Hz : length (zeros (length x)) = length x)
    by (unfold zeros; apply repeat_length).
  repeat match goal with
         | |- context [broadcast_row ?f ?u ?v] =>
             rewrite (broadcast_row_same f u v)
               by (rewrite ?zip_with_length, ?length_map, ?Hz,
                    ?H0, ?H1, ?H2, ?H3, ?H4; lia)
         end.
  apply (nth_ext _ _ 0 0).
  - unfold mixture_spec.
    rewrite ?zip_with_length, ?length_map, ?Hz, ?H0, ?H1, ?H2, ?H3, ?H4,
      tabulate_length; lia.
  - intros c Hc.
    assert (Hcx : (c < length x)%nat)
      by (revert Hc;
          rewrite ?zip_with_length, ?length_map, ?Hz, ?H0, ?H1, ?H2, ?H3, ?H4;
          lia).
    unfold mixture_spec; rewrite tabulate_nth by assumption.
    repeat (rewrite (zip_with_nth _ _ _ c 0 0 0);
            [|rewrite ?zip_with_length, ?length_map, ?Hz, ?H0, ?H1, ?H2, ?H3, ?H4;
              lia ..]).
    rewrite !map_nth_0 by assumption.
    rewrite zeros_nth.
    unfold sum, tabulate, menu; simpl.
    unfold relu, sigmoid, gaussian, step.
    destruct (Rlt_dec 0 (nth c x 0)); lra.
Qed.

Lemma mixture_spec_length (w : mat) (x : vec) :
  length (mixture_spec w x) = length x.
Proof. apply tabulate_length. Qed.

Lemma map_rows_ext (n' : nat) (f g : vec -> vec) (x : tensor) :
  wf_tensor x ->
  (forall r, length r = width x -> f r = g r) ->
  map_rows n' f x = map_rows n' g x.
Proof.
  intros Hwf Hfg; destruct x as [b n d|k b n d]; simpl in *.
  - destruct Hwf as [_ Hr]; f_equal.
    apply map_ext_in; intros r Hin.
    apply Hfg; rewrite Forall_forall in Hr; auto.
  - destruct Hwf as [_ Hm]; f_equal.
    apply map_ext_in; intros mm Hin.
    rewrite Forall_forall in Hm; destruct (Hm _ Hin) as [_ Hr].
    apply map_ext_in; intros r Hin'.
    apply Hfg; rewrite Forall_forall in Hr; auto.
Qed.

Lemma rows_ok_map (b n n' : nat) (f : vec -> vec) (d : list vec) :
  rows_ok b n d ->
  (forall r, length r = n -> length (f r) = n') ->
  rows_ok b n' (map f d).
Proof.
  intros [Hl Hr] Hf; split.
  - now rewrite length_map.
  - rewrite Forall_forall in *; intros r' Hin.
    apply in_map_iff in Hin; destruct Hin as (r & <- & Hin); auto.
Qed.

Lemma wf_map_rows (n' : nat) (f : vec -> vec) (x : tensor) :
  wf_tensor x ->
  (forall r, length r = width x -> length (f r) = n') ->
  wf_tensor (map_rows n' f x).
Proof.
  intros Hwf Hf; destruct x as [b n d|k b n d]; simpl in *.
  - eapply rows_ok_map; eauto.
  - destruct Hwf as [Hl Hm]; split.
    + now rewrite length_map.
    + rewrite Forall_forall in *; intros m' Hin.
      apply in_map_iff in Hin; destruct Hin as (mm & <- & Hin).
      eapply rows_ok_map; eauto.
Qed.

Lemma shape_map_rows (f : vec -> vec) (x : tensor) :
  shape (map_rows (width x) f x) = shape x.
Proof. now destruct x. Qed.

Lemma activation_forward_ok (m : MultiActivationModule.t) (x : tensor) :
  rows_ok MultiActivationModule.n_funcs (MultiActivationModule.n_out m)
    (MultiActivationModule.weight m) ->
  wf_tensor x ->
  width x = MultiActivationModule.n_out m ->
  MultiActivationModule.forward m x
  = Ok (map_rows (width x) (mixture_spec (MultiActivationModule.weight m)) x) /\
  wf_tensor (map_rows (width x) (mixture_spec (MultiActivationModule.weight m)) x).
Proof.
  intros Hw Hx Hn; split.
  - unfold MultiActivationModule.forward, broadcast_size.
    rewrite <- Hn, Nat.eqb_refl; simpl; rewrite Nat.eqb_refl; simpl.
    f_equal; apply map_rows_ext; auto.
    intros r Hr; apply forward_row_mixture.
    now rewrite Hr, Hn.
  - apply wf_map_rows; auto.
    intros r Hr; now rewrite mixture_spec_length.
Qed.

Lemma Forall2_map_in {A B : Type} (P : A -> B -> Prop) (f : A -> B) (l : list A) :
  (forall a, In a l -> P a (f a)) -> Forall2 P l (map f l).
Proof.
  induction l as [|a l IH]; intros HP; simpl; constructor.
  - apply HP; now left.
  - apply IH; intros a' Ha; apply HP; now right.
Qed.

Lemma mixture_spec_entry (w : mat) (x : vec) (c : nat) :
  (c < length x)%nat ->
  nth c (mixture_spec w x) 0
  = Rmax 0 (nth c x 0) * nth c (nth 0 w []) 0
    + 1 / (1 + exp (- nth c x 0)) * nth c (nth 1 w []) 0
    + tanh (nth c x 0) * nth c (nth 2 w []) 0
    + exp (- (nth c x 0 * nth c x 0) / 2) * nth c (nth 3 w []) 0
    + (if Rlt_dec 0 (nth c x 0) then 1 else 0) * nth c (nth 4 w []) 0.
Proof.
  intros Hc; unfold mixture_spec; rewrite tabulate_nth by assumption.
  unfold tabulate, sum; cbn [length menu seq map fold_left nth]; lra.
Qed.

(** C8. On an input whose last dimension is [n_out], of rank 2 or of rank
    3, the forward pass of a [MultiActivationModule] with a weight [w] of
    shape [n_funcs, n_out] returns a tensor of the same shape whose entry
    at channel [c] of every row is, for the input entry [x] at the same
    place, relu x * w[0, c] + sigmoid x * w[1, c] + tanh x * w[2, c] +
    exp(-x^2/2) * w[3, c] + step x * w[4, c]. *)
Theorem forward_mixture (m : MultiActivationModule.t) :
  rows_ok MultiActivationModule.n_funcs (MultiActivationModule.n_out m)
    (MultiActivationModule.weight m) ->
  let n := MultiActivationModule.n_out m in
  let w := MultiActivationModule.weight m in
  let mixed (x y : vec) :=
    length y = n /\
    forall c, (c < n)%nat ->
      nth c y 0
      = Rmax 0 (nth c x 0) * nth c (nth 0 w []) 0
        + 1 / (1 + exp (- nth c x 0)) * nth c (nth 1 w []) 0
        + tanh (nth c x 0) * nth c (nth 2 w []) 0
        + exp (- (nth c x 0 * nth c x 0) / 2) * nth c (nth 3 w []) 0
        + (if Rlt_dec 0 (nth c x 0) then 1 else 0) * nth c (nth 4 w []) 0 in
  (forall b d, rows_ok b n d ->
     exists d', MultiActivationModule.forward m (T2 b n d) = Ok (T2 b n d') /\
                Forall2 mixed d d') /\
  (forall k b d, length d = k -> Forall (rows_ok b n) d ->
     exists d', MultiActivationModule.forward m (T3 k b n d) = Ok (T3 k b n d') /\
                Forall2 (Forall2 mixed) d d').
Proof.
  intros Hw; cbv zeta.
  assert (Hrow : forall b d, rows_ok b (MultiActivationModule.n_out m) d ->
            Forall2
              (fun x y =>
                 length y = MultiActivationModule.n_out m /\
                 forall c, (c < MultiActivationModule.n_out m)%nat ->
                   nth c y 0
                   = Rmax 0 (nth c x 0)
                     * nth c (nth 0 (MultiActivationModule.weight m) []) 0
                     + 1 / (1 + exp (- nth c x 0))
                       * nth c (nth 1 (MultiActivationModule.weight m) []) 0
                     + tanh (nth c x 0)
                       * nth c (nth 2 (MultiActivationModule.weight m) []) 0
                     + exp (- (nth c x 0 * nth c x 0) / 2)
                       * nth c (nth 3 (MultiActivationModule.weight m) []) 0
                     + (if Rlt_dec 0 (nth c x 0) then 1 else 0)
                       * nth c (nth 4 (MultiActivationModule.weight m) []) 0)
              d (map (mixture_spec (MultiActivationModule.weight m)) d)).
  { intros b d [_ Hr]; apply Forall2_map_in; intros x Hin.
    rewrite Forall_forall in Hr; specialize (Hr x Hin).
    split; [now rewrite mixture_spec_length|].
    intros c Hc; apply mixture_spec_entry; list_lia. }
  split.
  - intros b d Hd.
    destruct (activation_forward_ok m (T2 b _ d) Hw Hd eq_refl) as [E _].
    eexists; split; [exact E|]; apply (Hrow b d Hd).
  - intros k b d Hk Hd.
    destruct (activation_forward_ok m (T3 k b _ d) Hw (conj Hk Hd) eq_refl)
      as [E _].
    eexists; split; [exact E|].
    apply Forall2_map_in; intros mm Hin.
    rewrite Forall_forall in Hd; apply (Hrow b mm (Hd mm Hin)).
Qed.

Lemma forward_mixture_witness :
  let m := MultiActivationModule.mk 2
             [[1; 0]; [0; 2]; [0; 0]; [0; 0]; [3; 0]]
             [[0; 0]; [0; 0]; [0; 0]; [0; 0]; [0; 0]] in
  rows_ok MultiActivationModule.n_funcs (MultiActivationModule.n_out m)
    (MultiActivationModule.weight m) /\
  rows_ok 1 2 [[2; -1]] /\
  exists y0 y1,
    MultiActivationModule.forward m (T2 1 2 [[2; -1]]) = Ok (T2 1 2 [[y0; y1]]) /\
    y0 = 5 /\
    y1 = 1 / (1 + exp (- -1)) * 2.
Proof.
  assert (Hw : rows_ok MultiActivationModule.n_funcs 2
                 [[1; 0]; [0; 2]; [0; 0]; [0; 0]; [3; 0]])
    by (split; [reflexivity | repeat constructor]).
  assert (Hx : rows_ok 1 2 [[2; -1]])
    by (split; [reflexivity | repeat constructor]).
  cbv zeta; split; [exact Hw|split; [exact Hx|]].
  destruct (proj1 (forward_mixture
                     (MultiActivationModule.mk 2
                        [[1; 0]; [0; 2]; [0; 0]; [0; 0]; [3; 0]]
                        [[0; 0]; [0; 0]; [0; 0]; [0; 0]; [0; 0]]) Hw)
              1%nat [[2; -1]] Hx) as (d' & E & HF).
  inversion HF as [|x y l l' [Hlen Hy] Hnil]; subst.
  inversion Hnil; subst.
  destruct y as [|y0 [|y1 [|y2 y]]]; try discriminate Hlen.
  exists y0, y1; split; [exact E|split].
  - pose proof (Hy 0%nat ltac:(simpl; lia)) as H0.
    cbn [nth MultiActivationModule.weight] in H0.
    rewrite H0, Rmax_right by lra.
    destruct (Rlt_dec 0 2); lra.
  - pose proof (Hy 1%nat ltac:(simpl; lia)) as H1.
    cbn [nth MultiActivationModule.weight] in H1.
    rewrite H1; lra.
Defined.

(** ** The one-hot selection *)

Lemma argmax_from_spec (l : vec) :
  forall best best_i i,
    let r := MultiActivationModule.argmax_from best best_i i l in
    (r = best_i /\ Forall (fun v => v <= best) l) \/
    (exists p, r = (i + p)%nat /\ (p < length l)%nat /\
               best < nth p l 0 /\
               (forall q, (q < length l)%nat -> nth q l 0 <= nth p l 0) /\
               (forall q, (q < p)%nat -> nth q l 0 < nth p l 0)).
Proof.
  induction l as [|v l IH]; intros best best_i i; cbv zeta; simpl.
  - left; split; auto.
  - destruct (Rle_dec v best) as [Hle|Hgt].
    + destruct (IH best best_i (S i)) as [[Hr Hall]|(p & Hr & Hp & Hb & Hmax & Hfirst)].
      * left; split; auto.
      * right; exists (S p); simpl; repeat split; try lia; auto.
        -- intros [|q] Hq; [lra | apply Hmax; lia].
        -- intros [|q] Hq; [lra | apply Hfirst; lia].
    + assert (Hv : best < v) by lra.
      destruct (IH v i (S i)) as [[Hr Hall]|(p & Hr & Hp & Hb & Hmax & Hfirst)].
      * right; exists 0%nat; simpl; repeat split; try lia; auto.
        intros [|q] Hq; [lra|].
        rewrite Forall_forall in Hall; apply Hall, nth_In; lia.
      * right; exists (S p); simpl; repeat split; try lia; try lra; auto.
        -- intros [|q] Hq; [lra | apply Hmax; lia].
        -- intros [|q] Hq; [lra | apply Hfirst; lia].
Qed.

Lemma argmax_spec (l : vec) :
  l <> [] ->
  let idx := MultiActivationModule.argmax l in
  (idx < length l)%nat /\
  (forall q, (q < length l)%nat -> nth q l 0 <= nth idx l 0) /\
  (forall q, (q < idx)%nat -> nth q l 0 < nth idx l 0).
Proof.
  destruct l as [|v l]; [congruence|intros _].
  cbv zeta; unfold MultiActivationModule.argmax.
  destruct (argmax_from_spec l v 0%nat 1%nat)
    as [[Hr Hall]|(p & Hr & Hp & Hb & Hmax & Hfirst)]; rewrite Hr.
  - simpl; repeat split; try lia.
    intros [|q] Hq; [lra|].
    rewrite Forall_forall in Hall; apply Hall, nth_In; lia.
  - simpl; repeat split; try lia.
    + intros [|q] Hq; [lra | apply Hmax; lia].
    + intros [|q] Hq; [lra | apply Hfirst; lia].
Qed.

Example argmax_tie : MultiActivationModule.argmax [0; 1; 1; 0; 0] = 1%nat.
Proof.
  unfold MultiActivationModule.argmax, MultiActivationModule.argmax_from.
  case_cmp; try reflexivity; lra.
Qed.

Lemma effective_weight_entry (m : MultiActivationModule.t) (i j : nat) :
  (i < MultiActivationModule.n_funcs)%nat ->
  (j < MultiActivationModule.n_out m)%nat ->
  nth j (nth i (MultiActivationModule.effective_weight m) []) 0 =
  if (i =? MultiActivationModule.argmax
             (column j (MultiActivationModule.weight m)))%nat
  then 1 else 0.
Proof.
  intros Hi Hj.
  unfold MultiActivationModule.effective_weight, MultiActivationModule.transpose.
  rewrite tabulate_nth by assumption.
  rewrite column_nth.
  unfold MultiActivationModule.one_hot.
  set (f := fun idx => tabulate _ _).
  rewrite (nth_indep _ [] (f 0%nat)) by now rewrite length_map, tabulate_length.
  rewrite map_nth; unfold f.
  rewrite tabulate_nth by assumption.
  now rewrite (tabulate_nth _ _ _ 0%nat) by assumption.
Qed.

Lemma effective_weight_shape (m : MultiActivationModule.t) :
  rows_ok MultiActivationModule.n_funcs (MultiActivationModule.n_out m)
    (MultiActivationModule.effective_weight m).
Proof.
  unfold MultiActivationModule.effective_weight, MultiActivationModule.transpose.
  split; [apply tabulate_length|].
  unfold tabulate at 1; rewrite Forall_forall; intros r Hin.
  apply in_map_iff in Hin; destruct Hin as (i & <- & _).
  rewrite column_length; unfold MultiActivationModule.one_hot.
  now rewrite length_map, tabulate_length.
Qed.

(** C5. The effective weight of a [MultiActivationModule] has shape
    [n_funcs, n_out], and every column of it is 1 at one index and 0
    elsewhere; that index holds a maximum of the same column of the
    weight, and every index before it holds a strictly smaller value
    (the first maximum in menu order). *)
Theorem effective_weight_one_hot (m : MultiActivationModule.t) :
  rows_ok MultiActivationModule.n_funcs (MultiActivationModule.n_out m)
    (MultiActivationModule.weight m) ->
  rows_ok MultiActivationModule.n_funcs (MultiActivationModule.n_out m)
    (MultiActivationModule.effective_weight m) /\
  forall j, (j < MultiActivationModule.n_out m)%nat ->
    let col := column j (MultiActivationModule.weight m) in
    let e := column j (MultiActivationModule.effective_weight m) in
    exists idx,
      (idx < MultiActivationModule.n_funcs)%nat /\
      (forall i, (i < MultiActivationModule.n_funcs)%nat ->
                 nth i e 0 = if (i =? idx)%nat then 1 else 0) /\
      (forall i, (i < MultiActivationModule.n_funcs)%nat ->
                 nth i col 0 <= nth idx col 0) /\
      (forall i, (i < idx)%nat -> nth i col 0 < nth idx col 0).
Proof.
  intros [Hl Hr]; split; [apply effective_weight_shape|].
  intros j Hj; cbv zeta.
  set (col := column j (MultiActivationModule.weight m)).
  assert (Hlen : length col = MultiActivationModule.n_funcs)
    by (unfold col; now rewrite column_length).
  assert (Hne : col <> [])
    by (intros E; rewrite E in Hlen; discriminate Hlen).
  destruct (argmax_spec col Hne) as (Hidx & Hmax & Hfirst).
  exists (MultiActivationModule.argmax col); rewrite Hlen in *.
  repeat split; auto.
  intros i Hi; rewrite column_nth.
  now apply effective_weight_entry.
Qed.

Lemma effective_weight_one_hot_witness :
  let m := MultiActivationModule.mk 1 [[0]; [1]; [1]; [0]; [0]]
             [[0]; [0]; [0]; [0]; [0]] in
  rows_ok MultiActivationModule.n_funcs (MultiActivationModule.n_out m)
    (MultiActivationModule.weight m) /\
  rows_ok MultiActivationModule.n_funcs (MultiActivationModule.n_out m)
    (MultiActivationModule.effective_weight m).
Proof.
  assert (Hw : rows_ok MultiActivationModule.n_funcs 1 [[0]; [1]; [1]; [0]; [0]])
    by (split; [reflexivity | repeat constructor]).
  cbv zeta; split; [exact Hw|].
  apply (effective_weight_one_hot
           (MultiActivationModule.mk 1 [[0]; [1]; [1]; [0]; [0]]
              [[0]; [0]; [0]; [0]; [0]]) Hw).
Defined.

(** ** Construction *)

Lemma rows_ok_tabulate (b n : nat) (f : nat -> nat -> R) :
  rows_ok b n (tabulate b (fun i => tabulate n (f i))).
Proof.
  split; [apply tabulate_length|].
  unfold tabulate at 1; rewrite Forall_forall; intros r Hin.
  apply in_map_iff in Hin; destruct Hin as (i & <- & _).
  apply tabulate_length.
Qed.

Lemma rows_ok_zeros (b n : nat) : rows_ok b n (repeat (zeros n) b).
Proof.
  split; [apply repeat_length|].
  rewrite Forall_forall; intros r Hin.
  apply repeat_spec in Hin; subst r.
  unfold zeros; apply repeat_length.
Qed.

Lemma ConcatLayer_init_wf (n_in n_out : nat) (drawn junk junk' : nat -> nat -> R) :
  ConcatLayer.wf (ConcatLayer.init n_in n_out drawn junk junk').
Proof.
  unfold ConcatLayer.wf, TertiaryLinear.wf, MultiActivationModule.wf; simpl.
  split; [split|split; [split|reflexivity]];
    try apply rows_ok_tabulate; apply rows_ok_zeros.
Qed.

Lemma layers_chained (e : Model.entropy) (sizes : list nat) :
  forall i n_in, chained n_in sizes (Model.layers e i n_in sizes).
Proof.
  induction sizes as [|n_out sizes IH]; intros i n_in; simpl; auto.
  repeat split; auto; apply ConcatLayer_init_wf.
Qed.

Lemma init_built (e : Model.entropy) (sizes : list nat) (m : Model.t) :
  Model.init e sizes = Ok m -> built sizes m.
Proof.
  destruct sizes as [|n_in rest]; simpl; [discriminate|].
  intros E; injection E as <-; split; simpl; auto.
  apply layers_chained.
Qed.

Lemma chained_length (sizes : list nat) :
  forall n_in net, chained n_in sizes net -> length net = length sizes.
Proof.
  induction sizes as [|n_out sizes IH]; intros n_in [|c net]; simpl;
    try tauto.
  intros (_ & _ & _ & Hc); f_equal; eauto.
Qed.

Lemma chained_nth (sizes : list nat) :
  forall n_in net k c0,
    chained n_in sizes net -> (k < length sizes)%nat ->
    let c := nth k net c0 in
    ConcatLayer.wf c /\
    TertiaryLinear.n_in (ConcatLayer.linear c)
    = (n_in + list_sum (firstn k sizes))%nat /\
    TertiaryLinear.n_out (ConcatLayer.linear c) = nth k sizes 0%nat.
Proof.
  induction sizes as [|n_out sizes IH]; intros n_in [|c net] k c0; simpl;
    try tauto; try lia.
  intros (Hwf & Hin & Hout & Hc) Hk.
  destruct k as [|k]; simpl.
  - split; [exact Hwf|split; [lia|exact Hout]].
  - destruct (IH _ _ k c0 Hc ltac:(lia)) as (H1 & H2 & H3).
    split; [exact H1|split; [rewrite H2; lia|exact H3]].
Qed.

(** One layer size: the constructor returns a network without blocks, and
    its forward pass is the softmax of the input. *)
Lemma init_one_size_succeeds :
  (length [4%nat] < 2)%nat /\
  Model.init zero_entropy [4%nat]
  = Ok {| Model.layer_sizes := [4%nat]; Model.network := [] |} /\
  Model.forward {| Model.layer_sizes := [4%nat]; Model.network := [] |}
    [1] (T3 1 1 4 [[[0; 0; 0; 0]]])
  = Ok (T3 1 1 4 [[softmax_row [0; 0; 0; 0]]]).
Proof.
  split; [simpl; lia|split; reflexivity].
Qed.

(** C6, as the code has it.  The constructor fails, with the exception of
    an index out of range, on the empty tuple of layer sizes; a single
    layer size is accepted and gives a network without blocks, and so is
    every longer tuple. *)
Theorem init_layer_sizes (e : Model.entropy) :
  Model.init e [] = Raise IndexError /\
  (forall n, Model.init e [n]
             = Ok {| Model.layer_sizes := [n]; Model.network := [] |}) /\
  (forall n sizes, exists m, Model.init e (n :: sizes) = Ok m /\
                             length (Model.network m) = length sizes).
Proof.
  repeat split.
  intros n sizes; eexists; split; [reflexivity|]; simpl.
  eapply chained_length, layers_chained.
Qed.

(** ** Shapes along the forward pass *)

Lemma zip_with_Forall2 {A B C : Type} (f : A -> B -> C)
  (P : A -> Prop) (Q : B -> Prop) (u : list A) :
  forall v, length u = length v -> Forall P u -> Forall Q v ->
    Forall2 (fun a c => exists b, P a /\ Q b /\ c = f a b) u (zip_with f u v).
Proof.
  induction u as [|a u IH]; intros [|b v] Hl Hu Hv; simpl in *;
    try discriminate; constructor.
  - inversion Hu; inversion Hv; subst; eauto.
  - inversion Hu; inversion Hv; subst; apply IH; auto.
Qed.

Lemma Forall2_Forall_r {A C : Type} (S : A -> C -> Prop) (T : C -> Prop)
  (u : list A) (w : list C) :
  Forall2 S u w -> (forall a c, S a c -> T c) -> Forall T w.
Proof.
  intros HF HS; induction HF; constructor; eauto.
Qed.

Lemma Forall2_impl {A C : Type} (S S' : A -> C -> Prop)
  (u : list A) (w : list C) :
  Forall2 S u w -> (forall a c, S a c -> S' a c) -> Forall2 S' u w.
Proof.
  intros HF HS; induction HF; constructor; eauto.
Qed.

Lemma Forall2_true_length {A C : Type} (S : A -> C -> Prop)
  (u : list A) (w : list C) :
  Forall2 S u w -> length u = length w.
Proof. intros HF; induction HF; simpl; auto. Qed.

Lemma linear_forward_ok (l : TertiaryLinear.t) (x : tensor) :
  TertiaryLinear.wf l -> wf_tensor x -> width x = TertiaryLinear.n_in l ->
  let y := map_rows (TertiaryLinear.n_out l)
             (fun r => map (dot r) (TertiaryLinear.weight l)) x in
  TertiaryLinear.forward l x = Ok y /\ wf_tensor y.
Proof.
  intros [[Hl _] _] Hx Hn; cbv zeta; split.
  - unfold TertiaryLinear.forward; now rewrite Hn, Nat.eqb_refl.
  - apply wf_map_rows; auto.
    intros r _; now rewrite length_map.
Qed.

Lemma mul_shared_rank3 (shared_weight : vec) (k b n : nat) (d : list (list vec)) :
  wf_tensor (T3 k b n d) ->
  length shared_weight = k \/ length shared_weight = 1%nat ->
  exists d', mul_shared (T3 k b n d) shared_weight = Ok (T3 k b n d') /\
             wf_tensor (T3 k b n d').
Proof.
  intros [Hl Hd] Hsw; unfold mul_shared.
  set (scale := fun (s : R) (m : list vec) => map (map (fun a => a * s)) m).
  assert (Hscale : forall s m, rows_ok b n m -> rows_ok b n (scale s m)).
  { intros s m Hm; unfold scale; eapply rows_ok_map; eauto.
    intros r Hr; now rewrite length_map. }
  destruct (Nat.eqb_spec k (length shared_weight)) as [E|NE].
  - eexists; split; [reflexivity|]; split.
    + rewrite zip_with_length; lia.
    + assert (HT : Forall (fun _ : R => True) shared_weight)
        by (rewrite Forall_forall; auto).
      eapply Forall2_Forall_r;
        [apply (zip_with_Forall2 _ _ _ d shared_weight ltac:(lia) Hd HT)|].
      intros m c (s & Hm & _ & ->); apply (Hscale s m Hm).
  - assert (E1 : length shared_weight = 1%nat) by lia.
    destruct (Nat.eqb_spec k 1) as [Ek|_]; [lia|].
    rewrite E1; simpl.
    eexists; split; [reflexivity|]; split.
    + now rewrite length_map.
    + rewrite Forall_forall in *; intros m' Hin.
      apply in_map_iff in Hin; destruct Hin as (m & <- & Hin).
      apply (Hscale (hd 0 shared_weight) m); auto.
Qed.

Lemma cat_last_rank3 (k b n n' : nat) (d d' : list (list vec)) :
  wf_tensor (T3 k b n d) -> wf_tensor (T3 k b n' d') ->
  let y := zip_with (zip_with (@app R)) d d' in
  cat_last (T3 k b n d) (T3 k b n' d') = Ok (T3 k b (n + n') y) /\
  wf_tensor (T3 k b (n + n') y) /\
  Forall2 (Forall2 (fun r r' => exists inner,
                        length inner = n' /\ r' = r ++ inner)) d y.
Proof.
  intros [Hl Hd] [Hl' Hd']; cbv zeta.
  assert (HF : Forall2 (fun m c => exists m', rows_ok b n m /\ rows_ok b n' m' /\
                                   c = zip_with (@app R) m m')
                 d (zip_with (zip_with (@app R)) d d'))
    by (apply (zip_with_Forall2 (zip_with (@app R)) (rows_ok b n)
                 (rows_ok b n')); auto;
        transitivity k; [exact Hl | symmetry; exact Hl']).
  assert (HG : forall m m', rows_ok b n m -> rows_ok b n' m' ->
               Forall2 (fun r c => exists r', length r = n /\ length r' = n' /\
                                   c = r ++ r')
                 m (zip_with (@app R) m m')).
  { intros m m' [Hm Hr] [Hm' Hr'].
    apply (zip_with_Forall2 (@app R) (fun r => length r = n)
             (fun r => length r = n')); auto.
    transitivity b; [exact Hm | symmetry; exact Hm']. }
  split; [|split].
  - unfold cat_last; now rewrite !Nat.eqb_refl.
  - split; [rewrite zip_with_length; list_lia|].
    eapply Forall2_Forall_r; [exact HF|].
    intros m c (m' & Hm & Hm' & ->); split.
    + rewrite zip_with_length; destruct Hm, Hm'; list_lia.
    + eapply Forall2_Forall_r; [exact (HG _ _ Hm Hm')|].
      intros r c (r' & Hr & Hr' & ->); rewrite length_app; lia.
  - eapply Forall2_impl; [exact HF|].
    intros m c (m' & Hm & Hm' & ->).
    eapply Forall2_impl; [exact (HG _ _ Hm Hm')|].
    intros r c (r' & Hr & Hr' & ->); eauto.
Qed.

Lemma concat_forward_rank3 (c : ConcatLayer.t) (shared_weight : vec)
  (k b n : nat) (d : list (list vec)) :
  ConcatLayer.wf c ->
  TertiaryLinear.n_in (ConcatLayer.linear c) = n ->
  wf_tensor (T3 k b n d) ->
  length shared_weight = k \/ length shared_weight = 1%nat ->
  let n_out := TertiaryLinear.n_out (ConcatLayer.linear c) in
  exists d',
    ConcatLayer.forward c shared_weight (T3 k b n d)
    = Ok (T3 k b (n + n_out) d') /\
    wf_tensor (T3 k b (n + n_out) d') /\
    Forall2 (Forall2 (fun r r' => exists inner,
                          length inner = n_out /\ r' = r ++ inner)) d d'.
Proof.
  intros (Hlin & Hact & Hout) Hn Hx Hsw; cbv zeta.
  unfold ConcatLayer.forward.
  destruct (linear_forward_ok (ConcatLayer.linear c) (T3 k b n d) Hlin Hx
              (eq_sym Hn)) as [-> Hy].
  cbn [bind map_rows] in *.
  destruct (mul_shared_rank3 shared_weight _ _ _ _ Hy Hsw) as (d2 & -> & Hd2).
  cbn [bind].
  destruct (activation_forward_ok (ConcatLayer.activation c) (T3 k b _ d2)
              (proj1 Hact) Hd2 (eq_sym Hout)) as [-> Hd3].
  cbn [bind map_rows] in *.
  destruct (cat_last_rank3 _ _ _ _ _ _ Hx Hd3) as (-> & Hwf & Hrows).
  eexists; repeat split; try apply Hwf; exact Hrows.
Qed.

(** On a tensor of rank 2 the product with the indexed shared weight has
    rank 3, and the concatenation with the input of rank 2 is refused. *)
Lemma concat_forward_rank2 (c : ConcatLayer.t) (shared_weight : vec)
  (b n : nat) (d : list vec) :
  exists e, ConcatLayer.forward c shared_weight (T2 b n d) = Raise e.
Proof.
  unfold ConcatLayer.forward, TertiaryLinear.forward; simpl.
  destruct (n =? _)%nat; simpl; [|eauto].
  unfold MultiActivationModule.forward; simpl.
  destruct (broadcast_size _ _) as [n1|e1]; simpl; [|eauto].
  destruct (broadcast_size _ _) as [n2|e2]; simpl; eauto.
Qed.

Lemma sequential_rank3 (shared_weight : vec) (k b : nat) (sizes : list nat) :
  forall n net d,
    chained n sizes net ->
    wf_tensor (T3 k b n d) ->
    length shared_weight = k \/ length shared_weight = 1%nat ->
    exists d',
      Model.sequential net shared_weight (T3 k b n d)
      = Ok (T3 k b (n + list_sum sizes) d') /\
      wf_tensor (T3 k b (n + list_sum sizes) d') /\
      Forall2 (Forall2 (fun r r' => exists inner,
                            length inner = list_sum sizes /\ r' = r ++ inner))
        d d'.
Proof.
  induction sizes as [|n_out sizes IH]; intros n [|c net] d Hc Hx Hsw;
    simpl in Hc; try tauto.
  - simpl; rewrite Nat.add_0_r; exists d; repeat split; try apply Hx.
    destruct Hx as [_ Hd]; clear - Hd.
    induction d as [|m d IHd]; constructor.
    + clear; induction m as [|r m IHm]; constructor; auto.
      exists []; now rewrite app_nil_r.
    + inversion Hd; auto.
  - destruct Hc as (Hwf & Hin & Hout & Hc).
    destruct (concat_forward_rank3 c shared_weight k b n d Hwf Hin Hx Hsw)
      as (d1 & E1 & Hd1 & Hr1).
    rewrite Hout in *.
    destruct (IH _ _ d1 Hc Hd1 Hsw) as (d2 & E2 & Hd2 & Hr2).
    simpl; rewrite E1; simpl; rewrite E2.
    replace (n + (n_out + list_sum sizes))%nat
      with (n + n_out + list_sum sizes)%nat by lia.
    exists d2; repeat split; try apply Hd2.
    clear - Hr1 Hr2.
    revert d2 Hr2; induction Hr1 as [|m m1 d d1 Hm _ IHd]; intros d2 Hr2;
      inversion Hr2 as [|? m2 ? d2' Hm2 Hd2']; subst; constructor; auto.
    clear - Hm Hm2.
    revert m2 Hm2; induction Hm as [|r r1 m m1 Hr _ IHm]; intros m2 Hm2;
      inversion Hm2 as [|? r2 ? m2' Hr2 Hm2']; subst; constructor; auto.
    destruct Hr as (i1 & Hl1 & ->), Hr2 as (i2 & Hl2 & ->).
    exists (i1 ++ i2); rewrite length_app, app_assoc; split; auto.
Qed.

Lemma chained_firstn (sizes : list nat) :
  forall n net j, chained n sizes net ->
                  chained n (firstn j sizes) (firstn j net).
Proof.
  induction sizes as [|n_out sizes IH]; intros n [|c net] [|j]; simpl;
    try tauto.
  intros (Hwf & Hin & Hout & Hc).
  split; [exact Hwf|split; [exact Hin|split; [exact Hout|apply IH, Hc]]].
Qed.

(** C7. The constructor gives the block at position [k] (the block
    [k + 1] of the network) the input width [s_0 + ... + s_k] and the
    output width [s_(k+1)]; and on an input of shape [kk, b, s_0] the
    feature tensor after the first [j] blocks has shape
    [kk, b, s_0 + ... + s_j], each of its rows being the input row with
    the new channels appended.  The widths do not depend on the values of
    the weights: they hold for every network [built] from the sizes. *)
Theorem running_feature_width :
  (forall e sizes m, Model.init e sizes = Ok m -> built sizes m) /\
  (forall sizes m, built sizes m ->
     forall k c0, (S k < length sizes)%nat ->
       let c := nth k (Model.network m) c0 in
       TertiaryLinear.n_in (ConcatLayer.linear c) = list_sum (firstn (S k) sizes) /\
       TertiaryLinear.n_out (ConcatLayer.linear c) = nth (S k) sizes 0%nat /\
       MultiActivationModule.n_out (ConcatLayer.activation c)
       = nth (S k) sizes 0%nat) /\
  (forall sizes m, built sizes m ->
     forall j shared_weight kk b d,
       wf_tensor (T3 kk b (hd 0%nat sizes) d) ->
       length shared_weight = kk \/ length shared_weight = 1%nat ->
       exists d',
         Model.sequential (firstn j (Model.network m)) shared_weight
           (T3 kk b (hd 0%nat sizes) d)
         = Ok (T3 kk b (list_sum (firstn (S j) sizes)) d') /\
         wf_tensor (T3 kk b (list_sum (firstn (S j) sizes)) d') /\
         Forall2 (Forall2 (fun r r' => exists inner,
                     length inner = list_sum (firstn j (tl sizes)) /\
                     r' = r ++ inner)) d d').
Proof.
  split; [exact init_built|split].
  - intros [|s0 rest] m [_ Hc] k c0 Hk; [contradiction|]; cbv zeta.
    simpl in Hk.
    destruct (chained_nth rest s0 (Model.network m) k c0 Hc ltac:(lia))
      as ((_ & _ & Hact) & Hin & Hout).
    simpl; repeat split; auto; congruence.
  - intros [|s0 rest] m [_ Hc] j shared_weight kk b d Hx Hsw; [contradiction|].
    simpl in *.
    apply sequential_rank3; auto.
    now apply chained_firstn.
Qed.

Lemma running_feature_width_witness :
  exists m, Model.init zero_entropy [4; 3; 2]%nat = Ok m /\
    built [4; 3; 2]%nat m /\
    TertiaryLinear.n_in
      (ConcatLayer.linear (nth 1 (Model.network m)
                             (ConcatLayer.init 0 0 (fun _ _ => 0) (fun _ _ => 0)
                                (fun _ _ => 0)))) = 7%nat.
Proof.
  eexists; split; [reflexivity|].
  destruct running_feature_width as (Hinit & Hblock & _).
  pose proof (Hinit zero_entropy [4; 3; 2]%nat _ eq_refl) as Hb.
  split; [exact Hb|].
  apply (Hblock _ _ Hb 1%nat); simpl; lia.
Defined.

(** ** Softmax *)

Lemma fold_left_Rplus (l : vec) (a : R) :
  fold_left Rplus l a = a + sum l.
Proof.
  unfold sum; revert a; induction l as [|x l IH]; intros a; simpl.
  - lra.
  - rewrite (IH (a + x)), (IH (0 + x)); lra.
Qed.

Lemma sum_cons (x : R) (l : vec) : sum (x :: l) = x + sum l.
Proof. unfold sum at 1; simpl; rewrite fold_left_Rplus; lra. Qed.

Lemma sum_exp_pos (r : vec) : r <> [] -> 0 < sum (map exp r).
Proof.
  induction r as [|x r IH]; [congruence|intros _].
  simpl map; rewrite sum_cons.
  pose proof (exp_pos x).
  destruct r as [|y r]; [unfold sum; simpl; lra|].
  assert (0 < sum (map exp (y :: r))) by (apply IH; discriminate).
  lra.
Qed.

Lemma sum_map_div (e : vec) (s : R) :
  sum (map (fun a => a / s) e) = sum e / s.
Proof.
  induction e as [|x e IH]; simpl.
  - unfold sum; simpl; lra.
  - rewrite !sum_cons, IH; lra.
Qed.

Lemma softmax_row_length (r : vec) : length (softmax_row r) = length r.
Proof. unfold softmax_row; now rewrite !length_map. Qed.

Lemma softmax_row_simplex (r : vec) :
  r <> [] ->
  Forall (fun a => 0 <= a) (softmax_row r) /\ sum (softmax_row r) = 1.
Proof.
  intros Hr; pose proof (sum_exp_pos r Hr) as Hs.
  unfold softmax_row; cbv zeta; split.
  - rewrite Forall_forall; intros a Hin.
    apply in_map_iff in Hin; destruct Hin as (y & <- & Hin).
    apply in_map_iff in Hin; destruct Hin as (x & <- & _).
    pose proof (exp_pos x).
    apply Rlt_le, Rdiv_lt_0_compat; assumption.
  - rewrite sum_map_div; field; lra.
Qed.

Lemma last_columns_rank3 (n k b w : nat) (d : list (list vec)) :
  wf_tensor (T3 k b w d) -> (0 < n <= w)%nat ->
  let y := map (map (fun r => skipn (length r - n) r)) d in
  Model.last_columns n (T3 k b w d) = T3 k b n y /\
  wf_tensor (T3 k b n y).
Proof.
  intros Hx Hn; cbv zeta.
  assert (E : Model.last_columns n (T3 k b w d)
              = map_rows n (fun r => skipn (length r - n) r) (T3 k b w d)).
  { unfold Model.last_columns; simpl width.
    destruct (Nat.eqb_spec n 0) as [E|_]; [lia|].
    now rewrite Nat.min_l by lia. }
  rewrite E; split; [reflexivity|].
  apply (wf_map_rows n (fun r => skipn (length r - n) r) (T3 k b w d) Hx).
  simpl; intros r Hr; rewrite length_skipn; lia.
Qed.

Lemma forward_rank3 (sizes : list nat) (m : Model.t) (shared_weight : vec)
  (k b : nat) (d : list (list vec)) :
  built sizes m ->
  (0 < last sizes 0)%nat ->
  wf_tensor (T3 k b (hd 0%nat sizes) d) ->
  length shared_weight = k \/ length shared_weight = 1%nat ->
  exists y,
    Model.forward m shared_weight (T3 k b (hd 0%nat sizes) d)
    = Ok (T3 k b (last sizes 0%nat) y) /\
    wf_tensor (T3 k b (last sizes 0%nat) y) /\
    Forall (Forall (fun r => Forall (fun a => 0 <= a) r /\ sum r = 1)) y.
Proof.
  intros [Hs Hc] Hlast Hx Hsw.
  destruct sizes as [|s0 rest]; [contradiction|].
  destruct (sequential_rank3 shared_weight k b rest s0 _ d Hc Hx Hsw)
    as (d1 & E1 & Hd1 & _).
  assert (Hle : (last (s0 :: rest) 0 <= s0 + list_sum rest)%nat).
  { clear; revert s0; induction rest as [|s1 rest IH]; intros s0.
    - simpl; lia.
    - specialize (IH s1); simpl in *; destruct rest; lia. }
  destruct (last_columns_rank3 (last (s0 :: rest) 0%nat) k b _ d1 Hd1
              (conj Hlast Hle)) as [E2 Hd2].
  unfold Model.forward, Model.n_out; rewrite Hs.
  cbn [hd] in *; rewrite E1; cbn [bind]; rewrite E2.
  cbn [map_rows width].
  eexists; split; [reflexivity|split].
  - apply (wf_map_rows _ softmax_row (T3 k b _ _) Hd2).
    intros r Hr; now rewrite softmax_row_length.
  - destruct Hd2 as [_ Hd2].
    rewrite Forall_forall in *; intros mm Hin.
    apply in_map_iff in Hin; destruct Hin as (m2 & <- & Hin).
    destruct (Hd2 _ Hin) as [_ Hrows].
    rewrite Forall_forall in *; intros r' Hin'.
    apply in_map_iff in Hin'; destruct Hin' as (r & <- & Hin').
    apply softmax_row_simplex.
    intros E; specialize (Hrows _ Hin'); rewrite E in Hrows.
    cbn [length] in Hrows; list_lia.
Qed.

(** X12.  On an input of rank 2 the first block raises, whatever the weights and
    the shared weight. *)
Lemma forward_rank2_raises (sizes : list nat) (m : Model.t)
  (shared_weight : vec) (b n : nat) (d : list vec) :
  built sizes m -> (2 <= length sizes)%nat ->
  exists e, Model.forward m shared_weight (T2 b n d) = Raise e.
Proof.
  intros [_ Hc] Hl.
  destruct sizes as [|s0 [|s1 rest]]; simpl in Hl; try lia.
  destruct (Model.network m) as [|c net] eqn:E; simpl in Hc; [tauto|].
  unfold Model.forward; rewrite E; simpl.
  destruct (concat_forward_rank2 c shared_weight b n d) as [e ->].
  now exists e.
Qed.

(** The network of sizes (4, 3, 2) on one row of rank 2, with a shared
    weight of one entry: the concatenation in the first block raises. *)
Lemma forward_rank2_counterexample :
  exists m,
    Model.init zero_entropy [4; 3; 2]%nat = Ok m /\
    wf_tensor (T2 1 4 [[0; 0; 0; 0]]) /\
    Model.forward m [1] (T2 1 4 [[0; 0; 0; 0]]) = Raise CatRank.
Proof.
  eexists; split; [reflexivity|split].
  - split; [reflexivity|repeat constructor].
  - reflexivity.
Qed.

(** C1, as the code has it.  For a network built from the sizes (4, 3, 2)
    and a shared weight of [k] entries (or of one entry), the forward pass
    on an input of shape [k, b, 4] returns a tensor of shape [k, b, 2]
    whose rows have non-negative entries that sum to 1. *)
Theorem forward_softmax_rank3 (m : Model.t) (shared_weight : vec)
  (k b : nat) (d : list (list vec)) :
  built [4; 3; 2]%nat m ->
  wf_tensor (T3 k b 4 d) ->
  length shared_weight = k \/ length shared_weight = 1%nat ->
  exists y,
    Model.forward m shared_weight (T3 k b 4 d) = Ok (T3 k b 2 y) /\
    wf_tensor (T3 k b 2 y) /\
    Forall (Forall (fun r => Forall (fun a => 0 <= a) r /\ sum r = 1)) y.
Proof.
  intros Hb Hx Hsw.
  apply (forward_rank3 [4; 3; 2]%nat m shared_weight k b d Hb); auto.
  simpl; lia.
Qed.

Lemma forward_softmax_rank3_witness :
  exists m,
    Model.init zero_entropy [4; 3; 2]%nat = Ok m /\
    built [4; 3; 2]%nat m /\
    wf_tensor (T3 1 1 4 [[[1; 0; -1; 2]]]) /\
    exists y,
      Model.forward m [1] (T3 1 1 4 [[[1; 0; -1; 2]]]) = Ok (T3 1 1 2 y) /\
      wf_tensor (T3 1 1 2 y) /\
      Forall (Forall (fun r => Forall (fun a => 0 <= a) r /\ sum r = 1)) y.
Proof.
  eexists; split; [reflexivity|].
  assert (Hb : built [4; 3; 2]%nat
                 {| Model.layer_sizes := [4; 3; 2]%nat;
                    Model.network := Model.layers zero_entropy 0 4 [3; 2]%nat |})
    by (apply (init_built zero_entropy); reflexivity).
  assert (Hx : wf_tensor (T3 1 1 4 [[[1; 0; -1; 2]]]))
    by (split; [reflexivity|repeat constructor]).
  split; [exact Hb|split; [exact Hx|]].
  apply (forward_softmax_rank3 _ [1] 1%nat 1%nat _ Hb Hx).
  left; reflexivity.
Defined.

(** ** Clipping *)

Lemma hardtanh_cases (x : R) :
  (x <= -1 /\ hardtanh x = -1) \/
  (-1 <= x <= 1 /\ hardtanh x = x) \/
  (1 <= x /\ hardtanh x = 1).
Proof.
  unfold hardtanh.
  destruct (Rle_dec x (-1)) as [H1|H1].
  - left; split; auto.
    rewrite Rmax_right by lra; apply Rmin_left; lra.
  - rewrite Rmax_left by lra.
    destruct (Rle_dec x 1) as [H2|H2].
    + right; left; split; [lra|apply Rmin_left; lra].
    + right; right; split; [lra|apply Rmin_right; lra].
Qed.

Lemma hardtanh_idempotent (x : R) : hardtanh (hardtanh x) = hardtanh x.
Proof.
  destruct (hardtanh_cases x) as [[_ E]|[[_ E]|[_ E]]];
    destruct (hardtanh_cases (hardtanh x)) as [[H E']|[[H E']|[H E']]];
    rewrite E in *; lra.
Qed.

Lemma sum_squares_nonneg (col : vec) : 0 <= sum (map (fun x => x * x) col).
Proof.
  induction col as [|x col IH]; simpl.
  - unfold sum; simpl; lra.
  - rewrite sum_cons; nra.
Qed.

Lemma sum_squares_zero (col : vec) :
  sum (map (fun x => x * x) col) = 0 <-> Forall (fun x => x = 0) col.
Proof.
  induction col as [|x col IH]; simpl.
  - unfold sum; simpl; split; auto.
  - rewrite sum_cons; pose proof (sum_squares_nonneg col); split.
    + intros E; constructor; [nra|apply IH; nra].
    + intros HF; inversion HF as [|? ? Hx Hc]; subst.
      apply IH in Hc; rewrite Hc; lra.
Qed.

Lemma fold_fadd_lift (col : vec) (a : R) :
  fold_left fadd (map fsquare (map Num col)) (Num a)
  = Num (a + sum (map (fun x => x * x) col)).
Proof.
  revert a; induction col as [|x col IH]; intros a; simpl.
  - unfold sum; simpl; f_equal; lra.
  - rewrite IH, sum_cons; f_equal; lra.
Qed.

Lemma fnorm_lift (col : vec) :
  fnorm (map Num col) = Num (sqrt (sum (map (fun x => x * x) col))).
Proof.
  unfold fnorm; rewrite fold_fadd_lift; simpl.
  pose proof (sum_squares_nonneg col).
  destruct (Rlt_dec _ 0); [lra|].
  do 2 f_equal; lra.
Qed.

Lemma fold_fadd_NaN (l : fvec) : fold_left fadd l NaN = NaN.
Proof. induction l as [|a l IH]; simpl; auto. Qed.

Lemma fnorm_NaN (l : fvec) : l <> [] -> Forall (fun a => a = NaN) l -> fnorm l = NaN.
Proof.
  destruct l as [|a l]; [congruence|intros _ HF].
  inversion HF; subst; unfold fnorm; simpl.
  now rewrite fold_fadd_NaN.
Qed.

(** One column: dividing by the norm twice is dividing by it once. *)
Lemma renormalize_entry (col : vec) (x : R) :
  In x col ->
  let N := fnorm (map Num col) in
  let N' := fnorm (map (fun y => fdiv (Num y) N) col) in
  fdiv (fdiv (Num x) N) N' = fdiv (Num x) N.
Proof.
  intros Hin; cbv zeta; rewrite fnorm_lift.
  set (S := sum (map (fun x => x * x) col)).
  pose proof (sum_squares_nonneg col) as HS; fold S in HS.
  destruct (Req_dec_T S 0) as [E|NE].
  - (* the column is zero: every quotient is NaN *)
    rewrite E, sqrt_0.
    assert (Hz : Forall (fun y => y = 0) col) by now apply sum_squares_zero.
    assert (Hq : forall y, In y col -> fdiv (Num y) (Num 0) = NaN).
    { intros y Hy; rewrite Forall_forall in Hz; rewrite (Hz y Hy); simpl.
      destruct (Req_dec_T 0 0); [reflexivity|lra]. }
    rewrite (Hq x Hin), fnorm_NaN; auto.
    + destruct col; [contradiction|discriminate].
    + rewrite Forall_forall; intros a Ha.
      apply in_map_iff in Ha; destruct Ha as (y & <- & Hy); auto.
  - (* the norm is positive: the quotients have norm 1 *)
    assert (Hs : 0 < sqrt S) by (apply sqrt_lt_R0; lra).
    assert (Hq : forall y, fdiv (Num y) (Num (sqrt S)) = Num (y / sqrt S)).
    { intros y; simpl; destruct (Req_dec_T (sqrt S) 0); [lra|reflexivity]. }
    rewrite (map_ext _ _ Hq), <- (map_map (fun y => y / sqrt S) Num).
    rewrite fnorm_lift, map_map, Hq.
    assert (E1 : sum (map (fun y => y / sqrt S * (y / sqrt S)) col) = 1).
    { rewrite (map_ext _ (fun y => y * y / S)).
      - rewrite <- (map_map (fun y => y * y) (fun a => a / S)), sum_map_div.
        fold S; field; lra.
      - intros y; rewrite <- (sqrt_sqrt S) at 3 by lra; field; lra. }
    rewrite E1, sqrt_1; simpl.
    destruct (Req_dec_T 1 0); [lra|].
    f_equal; field; lra.
Qed.

Lemma fcolumn_lift (j : nat) (w : mat) :
  fcolumn j (lift w) = map Num (column j w).
Proof.
  unfold fcolumn, lift, column; rewrite !map_map.
  apply map_ext; intros r.
  apply (map_nth Num).
Qed.

Lemma normalized_column (b n j : nat) (w : mat) :
  rows_ok b n w -> (j < n)%nat ->
  fcolumn j (MultiActivationModule.normalized n (lift w))
  = map (fun y => fdiv (Num y) (fnorm (map Num (column j w)))) (column j w).
Proof.
  intros [_ Hr] Hj.
  unfold MultiActivationModule.normalized, fcolumn at 1, column at 2, lift at 2.
  rewrite !map_map; apply map_ext_in; intros r Hin.
  rewrite Forall_forall in Hr; specialize (Hr r Hin).
  rewrite (zip_with_nth _ _ _ _ (Num 0) (Num 0))
    by (rewrite ?length_map, ?tabulate_length; list_lia).
  rewrite tabulate_nth by assumption.
  now rewrite fcolumn_lift, (map_nth Num).
Qed.

Lemma normalized_normalized (b n : nat) (w : mat) :
  rows_ok b n w ->
  MultiActivationModule.normalized n (MultiActivationModule.normalized n (lift w))
  = MultiActivationModule.normalized n (lift w).
Proof.
  intros Hw.
  set (W' := MultiActivationModule.normalized n (lift w)).
  unfold MultiActivationModule.normalized at 1.
  rewrite <- (map_id W') at 2; apply map_ext_in; intros row' Hin.
  unfold W', MultiActivationModule.normalized, lift in Hin.
  rewrite map_map in Hin; apply in_map_iff in Hin.
  destruct Hin as (r & <- & Hin).
  assert (Hlen : length r = n)
    by (destruct Hw as [_ Hr]; rewrite Forall_forall in Hr; auto).
  set (norms := tabulate n (fun j => fnorm (fcolumn j (lift w)))).
  apply (nth_ext _ _ (Num 0) (Num 0)).
  - rewrite !zip_with_length, length_map, !tabulate_length; list_lia.
  - intros j Hj.
    assert (Hjn : (j < n)%nat)
      by (revert Hj; rewrite !zip_with_length, length_map, !tabulate_length;
          list_lia).
    rewrite (zip_with_nth _ _ _ _ (Num 0) (Num 0))
      by (rewrite ?zip_with_length, ?length_map, ?tabulate_length; list_lia).
    rewrite (zip_with_nth _ _ _ _ (Num 0) (Num 0))
      by (rewrite ?length_map, ?tabulate_length; list_lia).
    rewrite tabulate_nth by assumption.
    unfold norms; rewrite tabulate_nth by assumption.
    fold W'; unfold W'; rewrite (normalized_column b n j w Hw Hjn).
    rewrite fcolumn_lift, (map_nth Num).
    apply renormalize_entry.
    unfold column; apply in_map_iff; exists r; auto.
Qed.

Lemma finite_vec_lift (v : fvec) (r : vec) :
  finite_vec v = Some r -> v = map Num r.
Proof.
  revert r; induction v as [|a v IH]; intros r; simpl.
  - now intros [= <-].
  - destruct a; try discriminate.
    destruct (finite_vec v) as [r'|]; [|discriminate].
    intros [= <-]; simpl; f_equal; auto.
Qed.

Lemma finite_mat_lift (W : fmat) (w : mat) :
  finite_mat W = Some w -> W = lift w.
Proof.
  revert w; induction W as [|v W IH]; intros w; simpl.
  - now intros [= <-].
  - destruct (finite_vec v) as [r|] eqn:E; [|discriminate].
    destruct (finite_mat W) as [w'|]; [|discriminate].
    intros [= <-]; simpl; f_equal; auto using finite_vec_lift.
Qed.

(** C9. Clipping twice is clipping once.  For [TertiaryLinear] the clamp
    to [-1, 1] succeeds and is a fixed point of itself.  For
    [MultiActivationModule] the renormalised weight is a fixed point of
    the renormalisation (a zero column is a column of NaN both times), and
    a layer that clipping returns is returned unchanged by clipping it
    again. *)
Theorem clip_weight_idempotent :
  (forall l : TertiaryLinear.t,
      exists l', Discretizable.clip_weight l = Some l' /\
                 Discretizable.clip_weight l' = Some l') /\
  (forall m : MultiActivationModule.t,
      rows_ok MultiActivationModule.n_funcs (MultiActivationModule.n_out m)
        (MultiActivationModule.weight m) ->
      let n := MultiActivationModule.n_out m in
      let w := lift (MultiActivationModule.weight m) in
      MultiActivationModule.normalized n (MultiActivationModule.normalized n w)
      = MultiActivationModule.normalized n w /\
      forall m', Discretizable.clip_weight m = Some m' ->
                 Discretizable.clip_weight m' = Some m').
Proof.
  split.
  - intros l; eexists; split; [reflexivity|].
    simpl; unfold Discretizable.hardtanh_weight, TertiaryLinear.with_weight.
    simpl; do 2 f_equal.
    rewrite map_map; apply map_ext; intros r.
    rewrite map_map; apply map_ext; intros x.
    apply hardtanh_idempotent.
  - intros m Hw; cbv zeta.
    pose proof (normalized_normalized _ _ _ Hw) as Hnn.
    split; [exact Hnn|].
    intros m'; simpl; unfold MultiActivationModule.clip_weight.
    destruct (finite_mat _) as [w'|] eqn:E; [|discriminate].
    intros [= <-]; simpl.
    pose proof (finite_mat_lift _ _ E) as EL.
    now rewrite <- EL, Hnn, E.
Qed.

Lemma clip_weight_idempotent_witness :
  let m := MultiActivationModule.mk 1 [[3]; [4]; [0]; [0]; [0]]
             [[0]; [0]; [0]; [0]; [0]] in
  rows_ok MultiActivationModule.n_funcs (MultiActivationModule.n_out m)
    (MultiActivationModule.weight m) /\
  MultiActivationModule.normalized 1
    (MultiActivationModule.normalized 1 (lift (MultiActivationModule.weight m)))
  = MultiActivationModule.normalized 1 (lift (MultiActivationModule.weight m)).
Proof.
  assert (Hw : rows_ok MultiActivationModule.n_funcs 1 [[3]; [4]; [0]; [0]; [0]])
    by (split; [reflexivity | repeat constructor]).
  cbv zeta; split; [exact Hw|].
  apply (proj2 clip_weight_idempotent
           (MultiActivationModule.mk 1 [[3]; [4]; [0]; [0]; [0]]
              [[0]; [0]; [0]; [0]; [0]]) Hw).
Defined.

(** ** Clipping a zero column *)

Lemma map_const_repeat {A B : Type} (f : A -> B) (c : B) (l : list A) :
  (forall a, In a l -> f a = c) -> map f l = repeat c (length l).
Proof.
  induction l as [|a l IH]; intros Hf; simpl; auto.
  rewrite Hf, IH; auto; [intros; apply Hf|]; simpl; auto.
Qed.

Lemma zero_column_normalized (m : MultiActivationModule.t) (j : nat) :
  rows_ok MultiActivationModule.n_funcs (MultiActivationModule.n_out m)
    (MultiActivationModule.weight m) ->
  (j < MultiActivationModule.n_out m)%nat ->
  Forall (fun x => x = 0) (column j (MultiActivationModule.weight m)) ->
  fcolumn j (MultiActivationModule.normalized (MultiActivationModule.n_out m)
               (lift (MultiActivationModule.weight m)))
  = repeat NaN MultiActivationModule.n_funcs /\
  MultiActivationModule.clip_weight m = None.
Proof.
  intros Hw Hj Hz.
  assert (Hcol : fcolumn j (MultiActivationModule.normalized
                              (MultiActivationModule.n_out m)
                              (lift (MultiActivationModule.weight m)))
                 = repeat NaN MultiActivationModule.n_funcs).
  { rewrite (normalized_column _ _ _ _ Hw Hj), fnorm_lift.
    rewrite (proj2 (sum_squares_zero _) Hz), sqrt_0.
    rewrite (map_const_repeat _ NaN).
    - rewrite column_length; now destruct Hw as [-> _].
    - rewrite Forall_forall in Hz; intros y Hy; rewrite (Hz y Hy); simpl.
      destruct (Req_dec_T 0 0); [reflexivity|lra]. }
  split; [exact Hcol|].
  unfold MultiActivationModule.clip_weight.
  destruct (finite_mat _) as [w'|] eqn:E; [|reflexivity].
  apply finite_mat_lift in E; rewrite E, fcolumn_lift in Hcol.
  destruct (column j w'); discriminate Hcol.
Qed.

(** C10. When a column of the weight of a [MultiActivationModule] is zero,
    its norm is zero and the division of [clip_weight] makes every entry
    of that column NaN, so the clipped weight is not a tensor of finite
    reals; this is the case of every column of a layer as [__init__]
    leaves it. *)
Theorem clip_weight_zero_column :
  (forall (m : MultiActivationModule.t) (j : nat),
      rows_ok MultiActivationModule.n_funcs (MultiActivationModule.n_out m)
        (MultiActivationModule.weight m) ->
      (j < MultiActivationModule.n_out m)%nat ->
      Forall (fun x => x = 0) (column j (MultiActivationModule.weight m)) ->
      fnorm (fcolumn j (lift (MultiActivationModule.weight m))) = Num 0 /\
      fcolumn j (MultiActivationModule.normalized (MultiActivationModule.n_out m)
                   (lift (MultiActivationModule.weight m)))
      = repeat NaN MultiActivationModule.n_funcs /\
      Discretizable.clip_weight m = None) /\
  (forall (n : nat) (junk : nat -> nat -> R) (j : nat),
      (j < n)%nat ->
      let m := MultiActivationModule.init n junk in
      fcolumn j (MultiActivationModule.normalized n
                   (lift (MultiActivationModule.weight m)))
      = repeat NaN MultiActivationModule.n_funcs /\
      Discretizable.clip_weight m = None).
Proof.
  split.
  - intros m j Hw Hj Hz.
    destruct (zero_column_normalized m j Hw Hj Hz) as [Hcol Hclip].
    repeat split; auto.
    rewrite fcolumn_lift, fnorm_lift.
    now rewrite (proj2 (sum_squares_zero _) Hz), sqrt_0.
  - intros n junk j Hj; cbv zeta.
    apply (zero_column_normalized (MultiActivationModule.init n junk) j);
      cbn [MultiActivationModule.init MultiActivationModule.weight
             MultiActivationModule.n_out]; auto.
    + apply rows_ok_zeros.
    + unfold column; rewrite Forall_forall; intros x Hin.
      apply in_map_iff in Hin; destruct Hin as (r & <- & Hr).
      apply repeat_spec in Hr; subst r; apply zeros_nth.
Qed.

Lemma clip_weight_zero_column_witness :
  let m := MultiActivationModule.init 2 (fun _ _ => 0) in
  (1 < 2)%nat /\
  fcolumn 1 (MultiActivationModule.normalized 2
               (lift (MultiActivationModule.weight m)))
  = repeat NaN MultiActivationModule.n_funcs /\
  Discretizable.clip_weight m = None.
Proof.
  assert (H : (1 < 2)%nat) by lia.
  cbv zeta; split; [exact H|].
  apply (proj2 clip_weight_zero_column 2%nat (fun _ _ => 0) 1%nat H).
Defined.

(** * Further properties of the code *)

(** ** Discretizing more than once *)

Lemma ternary_idempotent (x : R) : ternary (ternary x) = ternary x.
Proof.
  destruct (ternary_cases x) as ([E|[E|E]] & _); fold (ternary x) in E;
    rewrite E; unfold ternary, sign, hardshrink; case_cmp; lra.
Qed.

Lemma tabulate_ext {A : Type} (n : nat) (f g : nat -> A) :
  (forall i, (i < n)%nat -> f i = g i) -> tabulate n f = tabulate n g.
Proof.
  intros Hfg; unfold tabulate; apply map_ext_in; intros i Hi.
  apply in_seq in Hi; apply Hfg; lia.
Qed.

(** X1.  The effective weight of a [TertiaryLinear] layer is a projection:
    discretizing a layer that is already discretized leaves its weight as
    it is. *)
Theorem discretize_linear_twice (l : TertiaryLinear.t) :
  let l1 := Discretizable.discretize_weight l in
  TertiaryLinear.effective_weight l1 = TertiaryLinear.weight l1 /\
  TertiaryLinear.weight (Discretizable.discretize_weight l1)
  = TertiaryLinear.weight l1.
Proof.
  cbv zeta.
  assert (E : TertiaryLinear.effective_weight (Discretizable.discretize_weight l)
              = TertiaryLinear.weight (Discretizable.discretize_weight l)).
  { destruct l as [n_in n_out w st]; simpl.
    unfold TertiaryLinear.effective_weight; simpl.
    rewrite map_map; apply map_ext; intros r.
    rewrite map_map; apply map_ext; intros x.
    apply ternary_idempotent. }
  split; [exact E|].
  destruct (discretize_weight_spec (Discretizable.discretize_weight l)) as [_ Hw].
  exact (eq_trans Hw E).
Qed.

Lemma argmax_one_hot (n idx : nat) :
  (idx < n)%nat ->
  MultiActivationModule.argmax
    (tabulate n (fun i => if (i =? idx)%nat then 1 else 0)) = idx.
Proof.
  intros Hidx.
  set (l := tabulate n (fun i => if (i =? idx)%nat then 1 else 0)).
  assert (Hlen : length l = n) by apply tabulate_length.
  assert (Hne : l <> []) by (intros E; rewrite E in Hlen; simpl in Hlen; lia).
  destruct (argmax_spec l Hne) as (Hr & Hmax & _).
  rewrite Hlen in *.
  specialize (Hmax idx Hidx).
  unfold l in Hmax; rewrite !tabulate_nth in Hmax by assumption.
  rewrite Nat.eqb_refl in Hmax; fold l in Hmax.
  destruct (Nat.eqb_spec (MultiActivationModule.argmax l) idx) as [E|NE];
    [exact E|lra].
Qed.

Lemma effective_weight_column (m : MultiActivationModule.t) (j : nat) :
  (j < MultiActivationModule.n_out m)%nat ->
  column j (MultiActivationModule.effective_weight m)
  = tabulate MultiActivationModule.n_funcs
      (fun i => if (i =? MultiActivationModule.argmax
                           (column j (MultiActivationModule.weight m)))%nat
                then 1 else 0).
Proof.
  intros Hj; apply (nth_ext _ _ 0 0).
  - rewrite column_length, tabulate_length.
    apply effective_weight_shape.
  - intros i Hi.
    rewrite column_length in Hi.
    rewrite (proj1 (effective_weight_shape m)) in Hi.
    rewrite column_nth, tabulate_nth by assumption.
    now apply effective_weight_entry.
Qed.

(** X2.  The effective weight of a [MultiActivationModule] is a projection as
    well: the one-hot weight selects itself. *)
Theorem discretize_activation_twice (m : MultiActivationModule.t) :
  rows_ok MultiActivationModule.n_funcs (MultiActivationModule.n_out m)
    (MultiActivationModule.weight m) ->
  let m1 := Discretizable.discretize_weight m in
  MultiActivationModule.effective_weight m1 = MultiActivationModule.weight m1 /\
  MultiActivationModule.weight (Discretizable.discretize_weight m1)
  = MultiActivationModule.weight m1.
Proof.
  intros Hw; cbv zeta.
  assert (E : MultiActivationModule.effective_weight
                (Discretizable.discretize_weight m)
              = MultiActivationModule.weight (Discretizable.discretize_weight m)).
  { destruct (discretize_weight_spec m) as [_ Hd].
    change (MultiActivationModule.weight (Discretizable.discretize_weight m)
            = MultiActivationModule.effective_weight m) in Hd.
    assert (Hcol : forall j, (j < MultiActivationModule.n_out m)%nat ->
              MultiActivationModule.argmax
                (column j (MultiActivationModule.weight
                             (Discretizable.discretize_weight m)))
              = MultiActivationModule.argmax
                  (column j (MultiActivationModule.weight m))).
    { intros j Hj; rewrite Hd, (effective_weight_column m j Hj).
      apply argmax_one_hot.
      assert (Hlen : length (column j (MultiActivationModule.weight m))
                     = MultiActivationModule.n_funcs)
        by (rewrite column_length; apply Hw).
      destruct (argmax_spec (column j (MultiActivationModule.weight m)))
        as (Hr & _).
      - intros E; rewrite E in Hlen; discriminate Hlen.
      - now rewrite Hlen in Hr. }
    rewrite Hd.
    unfold MultiActivationModule.effective_weight.
    change (MultiActivationModule.n_out (Discretizable.discretize_weight m))
      with (MultiActivationModule.n_out m).
    do 2 f_equal; apply tabulate_ext; exact Hcol. }
  split; [exact E|].
  destruct (discretize_weight_spec (Discretizable.discretize_weight m)) as [_ Hw'].
  exact (eq_trans Hw' E).
Qed.

Lemma discretize_activation_twice_witness :
  let m := MultiActivationModule.mk 1 [[0]; [1]; [1]; [0]; [0]]
             [[0]; [0]; [0]; [0]; [0]] in
  rows_ok MultiActivationModule.n_funcs (MultiActivationModule.n_out m)
    (MultiActivationModule.weight m) /\
  MultiActivationModule.effective_weight (Discretizable.discretize_weight m)
  = MultiActivationModule.weight (Discretizable.discretize_weight m).
Proof.
  assert (Hw : rows_ok MultiActivationModule.n_funcs 1 [[0]; [1]; [1]; [0]; [0]])
    by (split; [reflexivity | repeat constructor]).
  cbv zeta; split; [exact Hw|].
  apply (discretize_activation_twice
           (MultiActivationModule.mk 1 [[0]; [1]; [1]; [0]; [0]]
              [[0]; [0]; [0]; [0]; [0]]) Hw).
Defined.

Section LostWeight.
Context {L W : Type} `{Discretizable.Laws L W}.
Import Discretizable.

Lemma restore_after_two_discretize (l : L) :
  weight (restore_weight (discretize_weight (discretize_weight l)))
  = effective_weight l /\
  stored_weight (discretize_weight (discretize_weight l)) = effective_weight l.
Proof.
  destruct (discretize_weight_spec (discretize_weight l)) as [Hs _].
  destruct (discretize_weight_spec l) as [_ Hw].
  unfold restore_weight; rewrite weight_with_weight.
  split; congruence.
Qed.

End LostWeight.

(** X3.  The second [discretize_weight] stores the discrete weight over the
    continuous one: [restore_weight] then gives back the effective weight,
    not the weight the layer had. *)
Theorem discretize_twice_loses_weight :
  (forall l : TertiaryLinear.t,
      TertiaryLinear.weight
        (Discretizable.restore_weight
           (Discretizable.discretize_weight (Discretizable.discretize_weight l)))
      = TertiaryLinear.effective_weight l) /\
  (forall m : MultiActivationModule.t,
      MultiActivationModule.weight
        (Discretizable.restore_weight
           (Discretizable.discretize_weight (Discretizable.discretize_weight m)))
      = MultiActivationModule.effective_weight m).
Proof.
  split; intros l; exact (proj1 (restore_after_two_discretize l)).
Qed.

(** ** Clipping the linear layer *)

Lemma ternary_hardtanh (x : R) : ternary (hardtanh x) = ternary x.
Proof.
  destruct (hardtanh_cases x) as [[H E]|[[H E]|[H E]]]; rewrite E;
    unfold ternary, sign, hardshrink; case_cmp; lra.
Qed.

(** X4.  [clip_weight] on a [TertiaryLinear] layer always succeeds; it brings
    every entry of the weight into [-1, 1], leaves the entries that are
    already there as they are, and does not touch the stored weight. *)
Theorem clip_linear_range (l : TertiaryLinear.t) :
  exists l',
    Discretizable.clip_weight l = Some l' /\
    TertiaryLinear.n_in l' = TertiaryLinear.n_in l /\
    TertiaryLinear.n_out l' = TertiaryLinear.n_out l /\
    TertiaryLinear.stored_weight l' = TertiaryLinear.stored_weight l /\
    Forall2 (Forall2 (fun x y => -1 <= y <= 1 /\
                                 (-1 <= x <= 1 -> y = x) /\
                                 (x < -1 -> y = -1) /\
                                 (1 < x -> y = 1)))
      (TertiaryLinear.weight l) (TertiaryLinear.weight l').
Proof.
  eexists; split; [reflexivity|]; simpl; repeat split.
  apply Forall2_map_r; intros r.
  apply Forall2_map_r; intros x.
  destruct (hardtanh_cases x) as [[H E]|[[H E]|[H E]]]; rewrite E;
    repeat split; intros; lra.
Qed.

(** X5.  Clipping a [TertiaryLinear] layer does not change its effective
    weight: the clamp at -1 and 1 is outside the dead zone. *)
Theorem clip_linear_keeps_effective_weight (l : TertiaryLinear.t) :
  exists l',
    Discretizable.clip_weight l = Some l' /\
    TertiaryLinear.effective_weight l' = TertiaryLinear.effective_weight l.
Proof.
  eexists; split; [reflexivity|].
  unfold TertiaryLinear.effective_weight; simpl.
  rewrite map_map; apply map_ext; intros r.
  rewrite map_map; apply map_ext; intros x.
  apply ternary_hardtanh.
Qed.

(** ** Clipping the activation layer *)

Lemma zip_fdiv_lift (r t : vec) :
  Forall (fun s => s <> 0) t ->
  zip_with fdiv (map Num r) (map Num t) = map Num (zip_with Rdiv r t).
Proof.
  revert t; induction r as [|x r IH]; intros [|s t] Ht; simpl; auto.
  inversion Ht; subst.
  destruct (Req_dec_T s 0); [contradiction|].
  f_equal; auto.
Qed.

Lemma finite_vec_of_lift (r : vec) : finite_vec (map Num r) = Some r.
Proof. induction r as [|x r IH]; simpl; [|rewrite IH]; reflexivity. Qed.

Lemma finite_mat_of_lift (w : mat) : finite_mat (lift w) = Some w.
Proof.
  induction w as [|r w IH]; simpl; auto.
  fold (lift w); now rewrite finite_vec_of_lift, IH.
Qed.

Lemma sum_squares_pos (col : vec) :
  sum_squares col <> 0 -> 0 < sqrt (sum_squares col).
Proof.
  intros NE; apply sqrt_lt_R0.
  pose proof (sum_squares_nonneg col); unfold sum_squares in *; lra.
Qed.

Lemma sum_squares_scaled (col : vec) (s : R) :
  s <> 0 -> sum_squares (map (fun x => x / s) col) = sum_squares col / (s * s).
Proof.
  intros Hs; unfold sum_squares.
  rewrite map_map, (map_ext _ (fun y => y * y / (s * s))).
  - now rewrite <- (map_map (fun y => y * y) (fun a => a / (s * s))), sum_map_div.
  - intros y; field; lra.
Qed.

(** The weight that [clip_weight] leaves when no column is zero: every
    entry divided by the norm of its column. *)
Lemma normalized_finite (b n : nat) (w : mat) :
  rows_ok b n w ->
  (forall j, (j < n)%nat -> sum_squares (column j w) <> 0) ->
  let norms := tabulate n (fun j => sqrt (sum_squares (column j w))) in
  MultiActivationModule.normalized n (lift w)
  = lift (map (fun r => zip_with Rdiv r norms) w).
Proof.
  intros Hw Hnz; cbv zeta; unfold MultiActivationModule.normalized.
  assert (E : tabulate n (fun j => fnorm (fcolumn j (lift w)))
              = map Num (tabulate n (fun j => sqrt (sum_squares (column j w))))).
  { unfold tabulate; rewrite map_map; apply map_ext; intros j.
    now rewrite fcolumn_lift, fnorm_lift. }
  rewrite E; unfold lift; rewrite !map_map; apply map_ext; intros r.
  apply zip_fdiv_lift.
  unfold tabulate; rewrite Forall_forall; intros s Hin.
  apply in_map_iff in Hin; destruct Hin as (j & <- & Hj).
  apply in_seq in Hj.
  pose proof (sum_squares_pos _ (Hnz j ltac:(lia))); lra.
Qed.

Lemma scaled_column (b n j : nat) (w : mat) (norms : vec) :
  rows_ok b n w -> length norms = n -> (j < n)%nat ->
  column j (map (fun r => zip_with Rdiv r norms) w)
  = map (fun x => x / nth j norms 0) (column j w).
Proof.
  intros [_ Hr] Hl Hj; unfold column; rewrite !map_map.
  apply map_ext_in; intros r Hin.
  rewrite Forall_forall in Hr; specialize (Hr r Hin).
  apply zip_with_nth; list_lia.
Qed.

Lemma argmax_from_scaled (s : R) (l : vec) :
  0 < s ->
  forall best best_i i,
    MultiActivationModule.argmax_from (best / s) best_i i
      (map (fun x => x / s) l)
    = MultiActivationModule.argmax_from best best_i i l.
Proof.
  intros Hs; induction l as [|v l IH]; intros best best_i i; simpl; auto.
  assert (Hi : 0 < / s) by now apply Rinv_0_lt_compat.
  destruct (Rle_dec (v / s) (best / s)) as [H1|H1];
    destruct (Rle_dec v best) as [H2|H2]; auto.
  - exfalso; apply H2.
    apply (Rmult_le_reg_r (/ s)); auto.
  - exfalso; apply H1.
    apply Rmult_le_compat_r; lra.
Qed.

Lemma argmax_scaled (s : R) (l : vec) :
  0 < s ->
  MultiActivationModule.argmax (map (fun x => x / s) l)
  = MultiActivationModule.argmax l.
Proof.
  intros Hs; destruct l as [|v l]; simpl; auto.
  now apply argmax_from_scaled.
Qed.

Lemma clip_activation_explicit (m : MultiActivationModule.t) :
  rows_ok MultiActivationModule.n_funcs (MultiActivationModule.n_out m)
    (MultiActivationModule.weight m) ->
  (forall j, (j < MultiActivationModule.n_out m)%nat ->
             sum_squares (column j (MultiActivationModule.weight m)) <> 0) ->
  let norms := tabulate (MultiActivationModule.n_out m)
                 (fun j => sqrt (sum_squares
                                   (column j (MultiActivationModule.weight m)))) in
  let w' := map (fun r => zip_with Rdiv r norms) (MultiActivationModule.weight m) in
  MultiActivationModule.clip_weight m
  = Some (MultiActivationModule.with_weight w' m) /\
  forall j, (j < MultiActivationModule.n_out m)%nat ->
    0 < nth j norms 0 /\
    nth j norms 0 * nth j norms 0
    = sum_squares (column j (MultiActivationModule.weight m)) /\
    column j w' = map (fun x => x / nth j norms 0)
                    (column j (MultiActivationModule.weight m)).
Proof.
  intros Hw Hnz; cbv zeta; split.
  - unfold MultiActivationModule.clip_weight.
    now rewrite (normalized_finite _ _ _ Hw Hnz), finite_mat_of_lift.
  - intros j Hj.
    rewrite (scaled_column _ _ j _ _ Hw (tabulate_length _ _) Hj).
    rewrite tabulate_nth by assumption.
    pose proof (sum_squares_pos _ (Hnz j Hj)) as Hp.
    repeat split; auto.
    apply sqrt_sqrt.
    pose proof (sum_squares_nonneg (column j (MultiActivationModule.weight m))).
    unfold sum_squares; lra.
Qed.

(** X6.  In exact real arithmetic (the norm of a column neither overflows
    nor underflows): when no column of the weight is zero, [clip_weight] on a
    [MultiActivationModule] succeeds: the clipped weight has the same
    shape, every column of it has a sum of squares of 1 (unit L2 norm),
    and the stored weight is as it was. *)
Theorem clip_activation_unit_norm (m : MultiActivationModule.t) :
  rows_ok MultiActivationModule.n_funcs (MultiActivationModule.n_out m)
    (MultiActivationModule.weight m) ->
  (forall j, (j < MultiActivationModule.n_out m)%nat ->
             sum_squares (column j (MultiActivationModule.weight m)) <> 0) ->
  exists m',
    Discretizable.clip_weight m = Some m' /\
    MultiActivationModule.n_out m' = MultiActivationModule.n_out m /\
    MultiActivationModule.stored_weight m' = MultiActivationModule.stored_weight m /\
    rows_ok MultiActivationModule.n_funcs (MultiActivationModule.n_out m)
      (MultiActivationModule.weight m') /\
    forall j, (j < MultiActivationModule.n_out m)%nat ->
              sum_squares (column j (MultiActivationModule.weight m')) = 1.
Proof.
  intros Hw Hnz.
  destruct (clip_activation_explicit m Hw Hnz) as [Hc Hcols].
  eexists; split; [exact Hc|]; simpl; repeat split.
  - rewrite length_map; apply Hw.
  - destruct Hw as [_ Hr]; rewrite Forall_forall in *; intros r' Hin.
    apply in_map_iff in Hin; destruct Hin as (r & <- & Hin).
    rewrite zip_with_length, tabulate_length, (Hr r Hin); lia.
  - intros j Hj; destruct (Hcols j Hj) as (Hp & Hsq & ->).
    rewrite sum_squares_scaled by lra.
    rewrite Hsq; field; auto.
Qed.

Lemma clip_activation_unit_norm_witness :
  let m := MultiActivationModule.mk 1 [[3]; [4]; [0]; [0]; [0]]
             [[0]; [0]; [0]; [0]; [0]] in
  rows_ok MultiActivationModule.n_funcs (MultiActivationModule.n_out m)
    (MultiActivationModule.weight m) /\
  (forall j, (j < MultiActivationModule.n_out m)%nat ->
             sum_squares (column j (MultiActivationModule.weight m)) <> 0) /\
  exists m',
    Discretizable.clip_weight m = Some m' /\
    MultiActivationModule.n_out m' = MultiActivationModule.n_out m /\
    MultiActivationModule.stored_weight m' = MultiActivationModule.stored_weight m /\
    rows_ok MultiActivationModule.n_funcs (MultiActivationModule.n_out m)
      (MultiActivationModule.weight m') /\
    forall j, (j < MultiActivationModule.n_out m)%nat ->
              sum_squares (column j (MultiActivationModule.weight m')) = 1.
Proof.
  assert (Hw : rows_ok MultiActivationModule.n_funcs 1 [[3]; [4]; [0]; [0]; [0]])
    by (split; [reflexivity | repeat constructor]).
  assert (Hnz : forall j, (j < 1)%nat ->
                  sum_squares (column j [[3]; [4]; [0]; [0]; [0]]) <> 0).
  { intros j Hj; assert (j = 0%nat) by lia; subst j.
    unfold sum_squares, sum; simpl; lra. }
  cbv zeta; split; [exact Hw|split; [exact Hnz|]].
  apply (clip_activation_unit_norm
           (MultiActivationModule.mk 1 [[3]; [4]; [0]; [0]; [0]]
              [[0]; [0]; [0]; [0]; [0]]) Hw Hnz).
Defined.

(** X7.  In exact real arithmetic, and when no column of the weight is zero:
    clipping a [MultiActivationModule] does not change its effective
    weight: dividing a column by its positive norm keeps the place of its
    first maximum. *)
Theorem clip_activation_keeps_effective_weight (m : MultiActivationModule.t) :
  rows_ok MultiActivationModule.n_funcs (MultiActivationModule.n_out m)
    (MultiActivationModule.weight m) ->
  (forall j, (j < MultiActivationModule.n_out m)%nat ->
             sum_squares (column j (MultiActivationModule.weight m)) <> 0) ->
  exists m',
    Discretizable.clip_weight m = Some m' /\
    MultiActivationModule.effective_weight m'
    = MultiActivationModule.effective_weight m.
Proof.
  intros Hw Hnz.
  destruct (clip_activation_explicit m Hw Hnz) as [Hc Hcols].
  eexists; split; [exact Hc|].
  unfold MultiActivationModule.effective_weight; simpl.
  do 2 f_equal; apply tabulate_ext; intros j Hj.
  destruct (Hcols j Hj) as (Hp & _ & ->).
  now apply argmax_scaled.
Qed.

Lemma clip_activation_keeps_effective_weight_witness :
  let m := MultiActivationModule.mk 1 [[3]; [4]; [0]; [0]; [0]]
             [[0]; [0]; [0]; [0]; [0]] in
  exists m',
    Discretizable.clip_weight m = Some m' /\
    MultiActivationModule.effective_weight m'
    = MultiActivationModule.effective_weight m.
Proof.
  assert (Hw : rows_ok MultiActivationModule.n_funcs 1 [[3]; [4]; [0]; [0]; [0]])
    by (split; [reflexivity | repeat constructor]).
  assert (Hnz : forall j, (j < 1)%nat ->
                  sum_squares (column j [[3]; [4]; [0]; [0]; [0]]) <> 0).
  { intros j Hj; assert (j = 0%nat) by lia; subst j.
    unfold sum_squares, sum; simpl; lra. }
  apply (clip_activation_keeps_effective_weight
           (MultiActivationModule.mk 1 [[3]; [4]; [0]; [0]; [0]]
              [[0]; [0]; [0]; [0]; [0]]) Hw Hnz).
Defined.

(** X8.  In exact real arithmetic (a non-zero column has a positive finite
    norm): [clip_weight] on a [MultiActivationModule] leaves the finite reals
    exactly when some column of the weight is zero. *)
Theorem clip_activation_fails_iff (m : MultiActivationModule.t) :
  rows_ok MultiActivationModule.n_funcs (MultiActivationModule.n_out m)
    (MultiActivationModule.weight m) ->
  Discretizable.clip_weight m = None <->
  exists j, (j < MultiActivationModule.n_out m)%nat /\
            Forall (fun x => x = 0) (column j (MultiActivationModule.weight m)).
Proof.
  intros Hw; split.
  - intros Hnone.
    destruct (Forall_Exists_dec
                (fun j => sum_squares
                            (column j (MultiActivationModule.weight m)) <> 0)
                (fun j => match Req_dec_T
                                  (sum_squares
                                     (column j (MultiActivationModule.weight m))) 0
                          with
                          | left E => right (fun NE => NE E)
                          | right NE => left NE
                          end)
                (seq 0 (MultiActivationModule.n_out m))) as [Hall|Hex].
    + rewrite Forall_forall in Hall.
      assert (Hnz : forall j, (j < MultiActivationModule.n_out m)%nat ->
                sum_squares (column j (MultiActivationModule.weight m)) <> 0)
        by (intros j Hj; apply Hall, in_seq; lia).
      destruct (clip_activation_explicit m Hw Hnz) as [Hc _].
      simpl in Hnone; congruence.
    + apply Exists_exists in Hex; destruct Hex as (j & Hj & Hz).
      apply in_seq in Hj; exists j; split; [lia|].
      apply sum_squares_zero; fold (sum_squares
                                      (column j (MultiActivationModule.weight m))).
      destruct (Req_dec_T (sum_squares
                             (column j (MultiActivationModule.weight m))) 0);
        [assumption|contradiction].
  - intros (j & Hj & Hz).
    exact (proj2 (zero_column_normalized m j Hw Hj Hz)).
Qed.

Lemma clip_activation_fails_iff_witness :
  let m := MultiActivationModule.init 1 (fun _ _ => 0) in
  rows_ok MultiActivationModule.n_funcs (MultiActivationModule.n_out m)
    (MultiActivationModule.weight m) /\
  (Discretizable.clip_weight m = None <->
   exists j, (j < MultiActivationModule.n_out m)%nat /\
             Forall (fun x => x = 0) (column j (MultiActivationModule.weight m))).
Proof.
  assert (Hw : rows_ok MultiActivationModule.n_funcs 1
                 (MultiActivationModule.weight
                    (MultiActivationModule.init 1 (fun _ _ => 0))))
    by (split; [reflexivity | repeat constructor]).
  cbv zeta; split; [exact Hw|].
  apply (clip_activation_fails_iff
           (MultiActivationModule.init 1 (fun _ _ => 0)) Hw).
Defined.

(** ** The discretized mixture *)

Lemma one_hot_mixture (m : MultiActivationModule.t) (r : vec) :
  rows_ok MultiActivationModule.n_funcs (MultiActivationModule.n_out m)
    (MultiActivationModule.weight m) ->
  length r = MultiActivationModule.n_out m ->
  mixture_spec (MultiActivationModule.effective_weight m) r
  = selected (MultiActivationModule.weight m) r.
Proof.
  intros Hw Hr; unfold mixture_spec, selected.
  apply tabulate_ext; intros c Hc; rewrite Hr in Hc.
  set (col := column c (MultiActivationModule.weight m)).
  assert (Hidx : (MultiActivationModule.argmax col < 5)%nat).
  { assert (Hlen : length col = 5%nat)
      by (unfold col; rewrite column_length; apply Hw).
    destruct (argmax_spec col) as (Hlt & _).
    - intros E; rewrite E in Hlen; discriminate Hlen.
    - now rewrite Hlen in Hlt. }
  assert (He : forall i, (i < 5)%nat ->
             nth c (nth i (MultiActivationModule.effective_weight m) []) 0
             = if (i =? MultiActivationModule.argmax col)%nat then 1 else 0)
    by (intros i Hi; now apply effective_weight_entry).
  unfold tabulate; cbn [length menu seq map].
  rewrite !He by lia.
  destruct (MultiActivationModule.argmax col) as [|[|[|[|[|k]]]]];
    try lia; unfold sum; cbn [Nat.eqb fold_left nth]; lra.
Qed.

Lemma selected_entry (w : mat) (x : vec) (c : nat) :
  (c < length x)%nat ->
  nth c (selected w x) 0
  = match MultiActivationModule.argmax (column c w) with
    | 0%nat => Rmax 0 (nth c x 0)
    | 1%nat => 1 / (1 + exp (- nth c x 0))
    | 2%nat => tanh (nth c x 0)
    | 3%nat => exp (- (nth c x 0 * nth c x 0) / 2)
    | 4%nat => if Rlt_dec 0 (nth c x 0) then 1 else 0
    | _ => nth c x 0
    end.
Proof.
  intros Hc; unfold selected; rewrite tabulate_nth by assumption.
  destruct (MultiActivationModule.argmax (column c w)) as [|[|[|[|[|k]]]]];
    try reflexivity.
  unfold menu; cbn [nth]; now destruct k.
Qed.

(** X9.  After [discretize_weight] the forward pass of a
    [MultiActivationModule], on an input of rank 2 or 3 whose last
    dimension is [n_out], returns a tensor of the same shape whose entry
    at channel [c] of every row is one function of the menu applied to the
    input entry at the same place: relu, sigmoid, tanh, exp(-x^2/2) or
    step according to the index (0 to 4) of the first maximum of column
    [c] of the weight that the layer had before. *)
Theorem discretized_forward_selects (m : MultiActivationModule.t) :
  rows_ok MultiActivationModule.n_funcs (MultiActivationModule.n_out m)
    (MultiActivationModule.weight m) ->
  let n := MultiActivationModule.n_out m in
  let w := MultiActivationModule.weight m in
  let m' := Discretizable.discretize_weight m in
  let picked (x y : vec) :=
    length y = n /\
    forall c, (c < n)%nat ->
      (MultiActivationModule.argmax (column c w) < 5)%nat /\
      nth c y 0
      = match MultiActivationModule.argmax (column c w) with
        | 0%nat => Rmax 0 (nth c x 0)
        | 1%nat => 1 / (1 + exp (- nth c x 0))
        | 2%nat => tanh (nth c x 0)
        | 3%nat => exp (- (nth c x 0 * nth c x 0) / 2)
        | _ => if Rlt_dec 0 (nth c x 0) then 1 else 0
        end in
  (forall b d, rows_ok b n d ->
     exists d', MultiActivationModule.forward m' (T2 b n d) = Ok (T2 b n d') /\
                Forall2 picked d d') /\
  (forall k b d, length d = k -> Forall (rows_ok b n) d ->
     exists d', MultiActivationModule.forward m' (T3 k b n d) = Ok (T3 k b n d') /\
                Forall2 (Forall2 picked) d d').
Proof.
  intros Hw; cbv zeta.
  destruct (discretize_weight_spec m) as [_ Hd].
  change (MultiActivationModule.weight (Discretizable.discretize_weight m)
          = MultiActivationModule.effective_weight m) in Hd.
  pose proof (effective_weight_shape m) as Hs; rewrite <- Hd in Hs.
  change (MultiActivationModule.n_out m)
    with (MultiActivationModule.n_out (Discretizable.discretize_weight m)) in Hs.
  assert (Hidx : forall c, (c < MultiActivationModule.n_out m)%nat ->
            (MultiActivationModule.argmax
               (column c (MultiActivationModule.weight m)) < 5)%nat).
  { intros c Hc.
    assert (Hlen : length (column c (MultiActivationModule.weight m)) = 5%nat)
      by (rewrite column_length; apply Hw).
    destruct (argmax_spec (column c (MultiActivationModule.weight m)))
      as (Hlt & _).
    - intros E; rewrite E in Hlen; discriminate Hlen.
    - now rewrite Hlen in Hlt. }
  assert (Hrow : forall b d, rows_ok b (MultiActivationModule.n_out m) d ->
            Forall2
              (fun x y =>
                 length y = MultiActivationModule.n_out m /\
                 forall c, (c < MultiActivationModule.n_out m)%nat ->
                   (MultiActivationModule.argmax
                      (column c (MultiActivationModule.weight m)) < 5)%nat /\
                   nth c y 0
                   = match MultiActivationModule.argmax
                             (column c (MultiActivationModule.weight m)) with
                     | 0%nat => Rmax 0 (nth c x 0)
                     | 1%nat => 1 / (1 + exp (- nth c x 0))
                     | 2%nat => tanh (nth c x 0)
                     | 3%nat => exp (- (nth c x 0 * nth c x 0) / 2)
                     | _ => if Rlt_dec 0 (nth c x 0) then 1 else 0
                     end)
              d (map (mixture_spec
                        (MultiActivationModule.weight
                           (Discretizable.discretize_weight m))) d)).
  { intros b d [_ Hr]; apply Forall2_map_in; intros x Hin.
    rewrite Forall_forall in Hr; specialize (Hr x Hin).
    split; [now rewrite mixture_spec_length|].
    intros c Hc; split; [now apply Hidx|].
    rewrite Hd, (one_hot_mixture m x Hw Hr), selected_entry by list_lia.
    specialize (Hidx c Hc).
    destruct (MultiActivationModule.argmax
                (column c (MultiActivationModule.weight m)))
      as [|[|[|[|[|k]]]]]; try reflexivity; lia. }
  split.
  - intros b d Hx.
    destruct (activation_forward_ok (Discretizable.discretize_weight m)
                (T2 b _ d) Hs Hx eq_refl) as [E _].
    eexists; split; [exact E|]; apply (Hrow b d Hx).
  - intros k b d Hk Hx.
    destruct (activation_forward_ok (Discretizable.discretize_weight m)
                (T3 k b _ d) Hs (conj Hk Hx) eq_refl) as [E _].
    eexists; split; [exact E|].
    apply Forall2_map_in; intros mm Hin.
    rewrite Forall_forall in Hx; apply (Hrow b mm (Hx mm Hin)).
Qed.

Lemma discretized_forward_selects_witness :
  let m := MultiActivationModule.mk 2
             [[0; 5]; [1; 0]; [1; 0]; [0; 0]; [0; 5]]
             [[0; 0]; [0; 0]; [0; 0]; [0; 0]; [0; 0]] in
  rows_ok MultiActivationModule.n_funcs (MultiActivationModule.n_out m)
    (MultiActivationModule.weight m) /\
  rows_ok 1 2 [[2; 3]] /\
  exists y0 y1,
    MultiActivationModule.forward (Discretizable.discretize_weight m)
      (T2 1 2 [[2; 3]]) = Ok (T2 1 2 [[y0; y1]]) /\
    y0 = 1 / (1 + exp (- 2)) /\
    y1 = 3.
Proof.
  assert (Hw : rows_ok MultiActivationModule.n_funcs 2
                 [[0; 5]; [1; 0]; [1; 0]; [0; 0]; [0; 5]])
    by (split; [reflexivity | repeat constructor]).
  assert (Hx : rows_ok 1 2 [[2; 3]])
    by (split; [reflexivity | repeat constructor]).
  assert (A0 : MultiActivationModule.argmax [0; 1; 1; 0; 0] = 1%nat)
    by (unfold MultiActivationModule.argmax, MultiActivationModule.argmax_from;
        case_cmp; try reflexivity; lra).
  assert (A1 : MultiActivationModule.argmax [5; 0; 0; 0; 5] = 0%nat)
    by (unfold MultiActivationModule.argmax, MultiActivationModule.argmax_from;
        case_cmp; try reflexivity; lra).
  cbv zeta; split; [exact Hw|split; [exact Hx|]].
  destruct (proj1 (discretized_forward_selects
                     (MultiActivationModule.mk 2
                        [[0; 5]; [1; 0]; [1; 0]; [0; 0]; [0; 5]]
                        [[0; 0]; [0; 0]; [0; 0]; [0; 0]; [0; 0]]) Hw)
              1%nat [[2; 3]] Hx) as (d' & E & HF).
  inversion HF as [|x y l l' [Hlen Hy] Hnil]; subst.
  inversion Hnil; subst.
  destruct y as [|y0 [|y1 [|y2 y]]]; try discriminate Hlen.
  exists y0, y1; split; [exact E|split].
  - destruct (Hy 0%nat ltac:(simpl; lia)) as [_ H0].
    cbn [nth MultiActivationModule.weight column map] in H0.
    now rewrite A0 in H0.
  - destruct (Hy 1%nat ltac:(simpl; lia)) as [_ H1].
    cbn [nth MultiActivationModule.weight column map] in H1.
    rewrite A1 in H1; rewrite H1.
    apply Rmax_right; lra.
Defined.

(** ** Forward pass: what it reads and how it fails *)

Lemma concat_forward_ignores_stored (c : ConcatLayer.t) (shared_weight : vec)
  (x : tensor) :
  ConcatLayer.forward
    {| ConcatLayer.linear :=
         Discretizable.restore_weight
           (Discretizable.discretize_weight (ConcatLayer.linear c));
       ConcatLayer.activation :=
         Discretizable.restore_weight
           (Discretizable.discretize_weight (ConcatLayer.activation c)) |}
    shared_weight x
  = ConcatLayer.forward c shared_weight x.
Proof.
  destruct c as [[n_in n_out w st] [n_out' w' st']]; reflexivity.
Qed.

(** X10.  [discretize] followed by [restore] brackets an evaluation: afterwards
    the forward pass returns, on every input and for every shared weight,
    what it returned before (the same tensor or the same exception). *)
Theorem forward_after_discretize_restore (m : Model.t) (shared_weight : vec)
  (x : tensor) :
  Model.forward (Model.restore (Model.discretize m)) shared_weight x
  = Model.forward m shared_weight x.
Proof.
  destruct m as [sizes net]; unfold Model.forward, Model.n_out; simpl.
  assert (E : forall y,
             Model.sequential
               (map (fun c =>
                       {| ConcatLayer.linear :=
                            Discretizable.restore_weight (ConcatLayer.linear c);
                          ConcatLayer.activation :=
                            Discretizable.restore_weight (ConcatLayer.activation c) |})
                  (map (fun c =>
                          {| ConcatLayer.linear :=
                               Discretizable.discretize_weight (ConcatLayer.linear c);
                             ConcatLayer.activation :=
                               Discretizable.discretize_weight
                                 (ConcatLayer.activation c) |}) net))
               shared_weight y
             = Model.sequential net shared_weight y).
  { induction net as [|c net IH]; intros y; simpl; auto.
    change (ConcatLayer.forward _ shared_weight y)
      with (ConcatLayer.forward
              {| ConcatLayer.linear :=
                   Discretizable.restore_weight
                     (Discretizable.discretize_weight (ConcatLayer.linear c));
                 ConcatLayer.activation :=
                   Discretizable.restore_weight
                     (Discretizable.discretize_weight (ConcatLayer.activation c)) |}
              shared_weight y) at 1.
    rewrite concat_forward_ignores_stored.
    destruct (ConcatLayer.forward c shared_weight y); simpl; auto. }
  now rewrite E.
Qed.

(** X11.  The three ways in which a block refuses an input of rank 3: a last
    dimension that is not [n_in] stops the matrix product; a shared weight
    whose length is neither the first dimension nor 1 cannot be broadcast;
    and when the first dimension is 1 the product is broadcast to the
    length of the shared weight, and the concatenation with the input is
    refused. *)
Theorem concat_forward_errors (c : ConcatLayer.t) (shared_weight : vec)
  (k b n : nat) (d : list (list vec)) :
  ConcatLayer.wf c ->
  let x := T3 k b n d in
  let n_in := TertiaryLinear.n_in (ConcatLayer.linear c) in
  let len := length shared_weight in
  (n <> n_in -> ConcatLayer.forward c shared_weight x = Raise MatmulShape) /\
  (n = n_in -> len <> k -> len <> 1%nat -> k <> 1%nat ->
   ConcatLayer.forward c shared_weight x = Raise BroadcastShape) /\
  (n = n_in -> len <> 1%nat -> k = 1%nat ->
   ConcatLayer.forward c shared_weight x = Raise CatShape).
Proof.
  intros (_ & _ & Hout); cbv zeta.
  unfold ConcatLayer.forward, TertiaryLinear.forward; cbn [width].
  repeat split.
  - intros NE; apply Nat.eqb_neq in NE; now rewrite NE.
  - intros E H1 H2 H3; rewrite E, Nat.eqb_refl; cbn [bind map_rows mul_shared].
    apply Nat.neq_sym, Nat.eqb_neq in H1.
    apply Nat.eqb_neq in H2, H3.
    now rewrite H1, H2, H3.
  - intros E H1 E1; rewrite E, Nat.eqb_refl; cbn [bind map_rows mul_shared].
    subst k.
    assert (H2 : (1 =? length shared_weight)%nat = false)
      by (apply Nat.eqb_neq; lia).
    rewrite H2; cbn [Nat.eqb bind].
    unfold MultiActivationModule.forward, broadcast_size; cbn [width].
    rewrite Hout, Nat.eqb_refl; cbn [bind]; rewrite Nat.eqb_refl.
    cbn [bind map_rows cat_last]; now rewrite H2.
Qed.

Lemma concat_forward_errors_witness :
  let c := ConcatLayer.init 4 3 (fun _ _ => 0) (fun _ _ => 0) (fun _ _ => 0) in
  ConcatLayer.wf c /\
  ConcatLayer.forward c [1; 2] (T3 1 1 4 [[[0; 0; 0; 0]]]) = Raise CatShape.
Proof.
  assert (Hwf : ConcatLayer.wf
                  (ConcatLayer.init 4 3 (fun _ _ => 0) (fun _ _ => 0)
                     (fun _ _ => 0)))
    by (split; [split|split; [split|reflexivity]];
        (split; [reflexivity|repeat constructor])).
  cbv zeta; split; [exact Hwf|].
  apply (concat_forward_errors _ [1; 2] 1%nat 1%nat 4%nat
           [[[0; 0; 0; 0]]] Hwf); simpl; auto.
Defined.

Lemma forward_rank2_raises_witness :
  exists m,
    Model.init zero_entropy [4; 3; 2]%nat = Ok m /\
    built [4; 3; 2]%nat m /\
    exists e, Model.forward m [1] (T2 2 4 [[1; 0; 0; 0]; [0; 1; 0; 0]]) = Raise e.
Proof.
  eexists; split; [reflexivity|].
  assert (Hb : built [4; 3; 2]%nat
                 {| Model.layer_sizes := [4; 3; 2]%nat;
                    Model.network := Model.layers zero_entropy 0 4 [3; 2]%nat |})
    by (apply (init_built zero_entropy); reflexivity).
  split; [exact Hb|].
  apply (forward_rank2_raises [4; 3; 2]%nat _ [1] 2%nat 4%nat _ Hb).
  simpl; lia.
Defined.

(** X13.  A last layer size of 0 does not give an empty output: the slice
    [-0:] is the whole tensor, and the forward pass returns the softmax of
    all the concatenated features. *)
Theorem forward_last_size_zero (sizes : list nat) (m : Model.t)
  (shared_weight : vec) (k b : nat) (d : list (list vec)) :
  built sizes m ->
  last sizes 0%nat = 0%nat ->
  wf_tensor (T3 k b (hd 0%nat sizes) d) ->
  length shared_weight = k \/ length shared_weight = 1%nat ->
  exists d',
    Model.sequential (Model.network m) shared_weight (T3 k b (hd 0%nat sizes) d)
    = Ok (T3 k b (list_sum sizes) d') /\
    Model.forward m shared_weight (T3 k b (hd 0%nat sizes) d)
    = Ok (T3 k b (list_sum sizes) (map (map softmax_row) d')).
Proof.
  intros [Hs Hc] Hlast Hx Hsw.
  destruct sizes as [|s0 rest]; [contradiction|].
  destruct (sequential_rank3 shared_weight k b rest s0 _ d Hc Hx Hsw)
    as (d1 & E1 & _ & _).
  cbn [hd list_sum fold_right] in *.
  exists d1; split; [exact E1|].
  unfold Model.forward, Model.n_out; rewrite Hs, Hlast, E1.
  cbn [bind]; unfold Model.last_columns; cbn [Nat.eqb width map_rows].
  do 2 f_equal; rewrite map_map; apply map_ext; intros mm.
  rewrite map_map; reflexivity.
Qed.

Lemma forward_last_size_zero_witness :
  exists m,
    Model.init zero_entropy [4; 0]%nat = Ok m /\
    built [4; 0]%nat m /\
    exists d',
      Model.forward m [1] (T3 1 1 4 [[[1; 0; -1; 2]]])
      = Ok (T3 1 1 4 (map (map softmax_row) d')).
Proof.
  eexists; split; [reflexivity|].
  assert (Hb : built [4; 0]%nat
                 {| Model.layer_sizes := [4; 0]%nat;
                    Model.network := Model.layers zero_entropy 0 4 [0]%nat |})
    by (apply (init_built zero_entropy); reflexivity).
  assert (Hx : wf_tensor (T3 1 1 4 [[[1; 0; -1; 2]]]))
    by (split; [reflexivity|repeat constructor]).
  split; [exact Hb|].
  destruct (forward_last_size_zero [4; 0]%nat _ [1] 1%nat 1%nat _ Hb eq_refl Hx
              (or_introl eq_refl)) as (d' & _ & E).
  exists d'; exact E.
Defined.

(** ** The shapes through the life cycle *)

Lemma linear_discretize_wf (l : TertiaryLinear.t) :
  TertiaryLinear.wf l -> TertiaryLinear.wf (Discretizable.discretize_weight l).
Proof.
  intros [Hw Hs]; destruct l as [n_in n_out w st]; split; simpl in *; auto.
  unfold TertiaryLinear.effective_weight; simpl.
  eapply rows_ok_map; eauto; intros r Hr; now rewrite length_map.
Qed.

Lemma activation_discretize_wf (m : MultiActivationModule.t) :
  MultiActivationModule.wf m ->
  MultiActivationModule.wf (Discretizable.discretize_weight m).
Proof.
  intros [Hw Hs]; split.
  - exact (effective_weight_shape m).
  - exact Hw.
Qed.

Lemma linear_clip_wf (l l' : TertiaryLinear.t) :
  TertiaryLinear.wf l -> Discretizable.clip_weight l = Some l' ->
  TertiaryLinear.wf l' /\
  TertiaryLinear.n_in l' = TertiaryLinear.n_in l /\
  TertiaryLinear.n_out l' = TertiaryLinear.n_out l.
Proof.
  intros [Hw Hs] [= <-]; repeat split; simpl; auto.
  - now rewrite length_map; apply Hw.
  - destruct Hw as [_ Hr]; rewrite Forall_forall in *; intros r' Hin.
    apply in_map_iff in Hin; destruct Hin as (r & <- & Hin).
    rewrite length_map; auto.
  - apply Hs.
  - apply Hs.
Qed.

Lemma lift_length (w : mat) : length (lift w) = length w.
Proof. apply length_map. Qed.

Lemma activation_clip_wf (m m' : MultiActivationModule.t) :
  MultiActivationModule.wf m -> Discretizable.clip_weight m = Some m' ->
  MultiActivationModule.wf m' /\
  MultiActivationModule.n_out m' = MultiActivationModule.n_out m.
Proof.
  intros [[Hl Hr] Hs]; simpl; unfold MultiActivationModule.clip_weight.
  destruct (finite_mat _) as [w'|] eqn:E; [|discriminate].
  intros [= <-]; apply finite_mat_lift in E.
  split; [|reflexivity]; split; [|exact Hs]; simpl.
  assert (Hrows : Forall (fun row => length row = MultiActivationModule.n_out m)
                    (lift w')).
  { rewrite <- E; unfold MultiActivationModule.normalized, lift.
    rewrite map_map, Forall_forall; intros row Hin.
    apply in_map_iff in Hin; destruct Hin as (r & <- & Hin).
    rewrite Forall_forall in Hr.
    rewrite zip_with_length, length_map, tabulate_length, (Hr r Hin); lia. }
  split.
  - rewrite <- (lift_length w'), <- E.
    unfold MultiActivationModule.normalized; now rewrite length_map, lift_length.
  - unfold lift in Hrows; rewrite Forall_map in Hrows.
    rewrite Forall_forall in *; intros r Hin.
    specialize (Hrows r Hin); now rewrite length_map in Hrows.
Qed.

Lemma chained_apply (f : TertiaryLinear.t -> TertiaryLinear.t)
  (g : MultiActivationModule.t -> MultiActivationModule.t) :
  (forall l, TertiaryLinear.wf l ->
             TertiaryLinear.wf (f l) /\
             TertiaryLinear.n_in (f l) = TertiaryLinear.n_in l /\
             TertiaryLinear.n_out (f l) = TertiaryLinear.n_out l) ->
  (forall a, MultiActivationModule.wf a ->
             MultiActivationModule.wf (g a) /\
             MultiActivationModule.n_out (g a) = MultiActivationModule.n_out a) ->
  forall sizes n net,
    chained n sizes net ->
    chained n sizes
      (map (fun c => {| ConcatLayer.linear := f (ConcatLayer.linear c);
                        ConcatLayer.activation := g (ConcatLayer.activation c) |})
           net).
Proof.
  intros Hf Hg; induction sizes as [|n_out sizes IH]; intros n [|c net];
    simpl; try tauto.
  intros ((Hl & Ha & Hn) & Hin & Hout & Hc).
  destruct (Hf _ Hl) as (Hl' & Hin' & Hout').
  destruct (Hg _ Ha) as (Ha' & Hn').
  split; [|split; [congruence|split; [congruence|auto]]].
  split; [exact Hl'|split; [exact Ha'|simpl; congruence]].
Qed.

Lemma chained_init_blocks (s : Model.samples) (sizes : list nat) :
  forall n i net,
    chained n sizes net -> chained n sizes (Model.init_blocks s i net).
Proof.
  induction sizes as [|n_out sizes IH]; intros n i [|c net]; simpl; try tauto.
  intros ((Hl & Ha & Hn) & Hin & Hout & Hc).
  split; [|split; [exact Hin|split; [exact Hout|auto]]].
  split; [|split; [|exact Hn]].
  - split; [apply rows_ok_tabulate|apply Hl].
  - split; [apply rows_ok_tabulate|apply Ha].
Qed.

Lemma chained_clip_blocks (sizes : list nat) :
  forall n net net',
    chained n sizes net -> Model.clip_blocks net = Some net' ->
    chained n sizes net'.
Proof.
  induction sizes as [|n_out sizes IH]; intros n [|c net] net'; simpl;
    try tauto.
  - now intros _ [= <-].
  - intros ((Hl & Ha & Hn) & Hin & Hout & Hc).
    destruct (MultiActivationModule.clip_weight (ConcatLayer.activation c))
      as [a|] eqn:Ea; [|discriminate].
    destruct (Model.clip_blocks net) as [r|] eqn:Er; [|discriminate].
    intros [= <-]; simpl.
    destruct (linear_clip_wf (ConcatLayer.linear c) _ Hl eq_refl)
      as (Hl' & Hin' & Hout').
    destruct (activation_clip_wf (ConcatLayer.activation c) a Ha Ea)
      as (Ha' & Hn').
    split; [|split; [exact Hin|split; [exact Hout|eauto]]].
    split; [exact Hl'|split; [exact Ha'|simpl in *; congruence]].
Qed.

(** X14.  The operations of the life cycle keep the architecture: a network
    built from the layer sizes is still one after [discretize], after
    [restore], after [init_weights] and after a [clip] that stays in the
    finite reals, so that its forward pass accepts the same inputs. *)
Theorem lifecycle_keeps_shapes (sizes : list nat) (m : Model.t) :
  built sizes m ->
  built sizes (Model.discretize m) /\
  built sizes (Model.restore m) /\
  (forall s, built sizes (Model.init_weights s m)) /\
  (forall m', Model.clip m = Some m' -> built sizes m').
Proof.
  intros [Hs Hc]; destruct sizes as [|n rest]; [contradiction|].
  split; [|split; [|split]].
  - split; [exact Hs|].
    unfold Model.discretize, Model.apply; cbn [Model.network].
    apply chained_apply; auto.
    + intros l Hl; split; [now apply linear_discretize_wf|now destruct l].
    + intros a Ha; split; [now apply activation_discretize_wf|now destruct a].
  - split; [exact Hs|].
    unfold Model.restore, Model.apply; cbn [Model.network].
    apply chained_apply; auto.
    + intros l [Hw Hst]; split; [split; assumption|split; reflexivity].
    + intros a [Hw Hst]; split; [split; assumption|reflexivity].
  - intros s; split; [exact Hs|].
    unfold Model.init_weights; cbn [Model.network].
    now apply chained_init_blocks.
  - intros m' H; unfold Model.clip in H.
    destruct (Model.clip_blocks (Model.network m)) as [net'|] eqn:E;
      [|discriminate].
    injection H as <-; split; [exact Hs|]; cbn [Model.network].
    eapply chained_clip_blocks; eauto.
Qed.

Lemma lifecycle_keeps_shapes_witness :
  exists m,
    Model.init zero_entropy [4; 3; 2]%nat = Ok m /\
    built [4; 3; 2]%nat m /\
    built [4; 3; 2]%nat (Model.discretize m).
Proof.
  eexists; split; [reflexivity|].
  assert (Hb : built [4; 3; 2]%nat
                 {| Model.layer_sizes := [4; 3; 2]%nat;
                    Model.network := Model.layers zero_entropy 0 4 [3; 2]%nat |})
    by (apply (init_built zero_entropy); reflexivity).
  split; [exact Hb|].
  exact (proj1 (lifecycle_keeps_shapes [4; 3; 2]%nat _ Hb)).
Defined.

(** ** Clipping a whole network *)

(** X15.  A network that has just been constructed cannot be clipped: the
    weight of its first activation layer is zero, and when that layer has
    at least one channel [clip] leaves the finite reals. *)
Theorem clip_fresh_model (e : Model.entropy) (n_in n_out : nat)
  (rest : list nat) :
  (0 < n_out)%nat ->
  exists m, Model.init e (n_in :: n_out :: rest) = Ok m /\
            Model.clip m = None.
Proof.
  intros Hn; eexists; split; [reflexivity|].
  unfold Model.clip; cbn [Model.network Model.layers Model.clip_blocks].
  cbn [ConcatLayer.init ConcatLayer.activation ConcatLayer.linear].
  assert (E : Discretizable.clip_weight
                (MultiActivationModule.init n_out (Model.junk_activation e 0))
              = None).
  { apply (zero_column_normalized
             (MultiActivationModule.init n_out (Model.junk_activation e 0)) 0);
      cbn [MultiActivationModule.init MultiActivationModule.weight
             MultiActivationModule.n_out]; auto.
    - apply rows_ok_zeros.
    - unfold column; rewrite Forall_forall; intros x Hin.
      apply in_map_iff in Hin; destruct Hin as (r & <- & Hr).
      apply repeat_spec in Hr; subst r; apply zeros_nth. }
  rewrite E.
  destruct (Discretizable.clip_weight _); reflexivity.
Qed.

Lemma clip_fresh_model_witness :
  (0 < 3)%nat /\
  exists m, Model.init zero_entropy [4; 3; 2]%nat = Ok m /\
            Model.clip m = None.
Proof.
  assert (H : (0 < 3)%nat) by lia.
  split; [exact H|].
  apply (clip_fresh_model zero_entropy 4 3 [2%nat] H).
Defined.

Lemma init_blocks_clip (s : Model.samples) (sizes : list nat) :
  (forall i r c, 0 < Model.uniform s i r c) ->
  forall n i net,
    chained n sizes net ->
    exists net', Model.clip_blocks (Model.init_blocks s i net) = Some net'.
Proof.
  intros Hpos; induction sizes as [|n_out sizes IH]; intros n i [|c net];
    simpl; try tauto.
  - intros _; eexists; reflexivity.
  - intros ((Hl & Ha & Hn) & Hin & Hout & Hc).
    destruct (IH _ (S i) net Hc) as (r & ->).
    set (a := weight_init_activation (Model.uniform s i) (ConcatLayer.activation c)).
    assert (Hw : rows_ok MultiActivationModule.n_funcs
                   (MultiActivationModule.n_out a) (MultiActivationModule.weight a))
      by apply rows_ok_tabulate.
    assert (Hnz : forall j, (j < MultiActivationModule.n_out a)%nat ->
                    sum_squares (column j (MultiActivationModule.weight a)) <> 0).
    { intros j Hj E; apply sum_squares_zero in E.
      unfold a, weight_init_activation in E; simpl in E.
      inversion E as [|? ? E0 _]; subst.
      simpl in Hj; rewrite tabulate_nth in E0 by assumption.
      specialize (Hpos i 0%nat j); lra. }
    destruct (clip_activation_explicit a Hw Hnz) as [-> _].
    eexists; reflexivity.
Qed.

(** X16.  After [init_weights], [clip] stays in the finite reals as soon as the
    samples drawn for the activation layers are positive. *)
Theorem clip_after_init_weights (sizes : list nat) (m : Model.t)
  (s : Model.samples) :
  built sizes m ->
  (forall i r c, 0 < Model.uniform s i r c) ->
  exists m', Model.clip (Model.init_weights s m) = Some m' /\ built sizes m'.
Proof.
  intros Hb Hpos.
  assert (Hb' : built sizes (Model.init_weights s m))
    by (destruct sizes as [|n rest]; [destruct Hb; contradiction|];
        destruct Hb as [Hs Hc]; split; [exact Hs|];
        now apply chained_init_blocks).
  destruct Hb as [Hs Hc]; destruct sizes as [|n rest]; [contradiction|].
  destruct (init_blocks_clip s rest Hpos n 0%nat _ Hc) as (net' & E).
  unfold Model.clip; cbn [Model.init_weights Model.network]; rewrite E.
  eexists; split; [reflexivity|].
  destruct Hb' as [_ Hc']; split; [exact Hs|]; cbn [Model.network].
  eapply chained_clip_blocks; eauto.
Qed.

Lemma clip_after_init_weights_witness :
  let s := {| Model.normal := fun _ _ _ => 0; Model.uniform := fun _ _ _ => 1 |} in
  exists m,
    Model.init zero_entropy [4; 3; 2]%nat = Ok m /\
    built [4; 3; 2]%nat m /\
    (forall i r c, 0 < Model.uniform s i r c) /\
    exists m', Model.clip (Model.init_weights s m) = Some m' /\
               built [4; 3; 2]%nat m'.
Proof.
  cbv zeta; eexists; split; [reflexivity|].
  assert (Hb : built [4; 3; 2]%nat
                 {| Model.layer_sizes := [4; 3; 2]%nat;
                    Model.network := Model.layers zero_entropy 0 4 [3; 2]%nat |})
    by (apply (init_built zero_entropy); reflexivity).
  assert (Hpos : forall i r c : nat,
             0 < Model.uniform
                   {| Model.normal := fun _ _ _ => 0;
                      Model.uniform := fun _ _ _ => 1 |} i r c)
    by (intros; simpl; lra).
  split; [exact Hb|split; [exact Hpos|]].
  apply (clip_after_init_weights [4; 3; 2]%nat _ _ Hb Hpos).
Defined.

(** ** The histograms *)

Lemma flatten_effective_weight (l : TertiaryLinear.t) :
  flatten (TertiaryLinear.effective_weight l)
  = map ternary (flatten (TertiaryLinear.weight l)).
Proof.
  unfold flatten, TertiaryLinear.effective_weight.
  now rewrite concat_map.
Qed.

Lemma linear_discretized_fixed (l : TertiaryLinear.t) :
  TertiaryLinear.effective_weight (Discretizable.discretize_weight l)
  = TertiaryLinear.weight (Discretizable.discretize_weight l).
Proof.
  destruct l as [n_in n_out w st]; simpl.
  unfold TertiaryLinear.effective_weight; simpl.
  rewrite map_map; apply map_ext; intros r.
  rewrite map_map; apply map_ext; intros x.
  apply ternary_idempotent.
Qed.

(** X17.  [write_hist] raises exactly on a network without blocks (the
    concatenation of an empty list).  Otherwise it hands two histograms to
    the writer, tagged "effective weights" and "actual weights" and
    numbered with the epoch; the second holds the weights of the linear
    layers, block after block and row after row, and the first holds the
    ternary value of each of them, in the same order. *)
Theorem write_hist_records (writer : list histogram) (model : Model.t)
  (epoch : nat) :
  (write_hist writer model epoch = None <-> Model.network model = []) /\
  (forall out, write_hist writer model epoch = Some out ->
     let a := concat (map (fun c => flatten (TertiaryLinear.weight
                                               (ConcatLayer.linear c)))
                        (Model.network model)) in
     out = writer ++
           [ {| tag := "effective weights"; values := map ternary a;
                global_step := epoch |};
             {| tag := "actual weights"; values := a;
                global_step := epoch |} ]).
Proof.
  unfold write_hist, cat_flat.
  destruct (Model.network model) as [|c net]; simpl.
  - split; [tauto|discriminate].
  - split; [split; discriminate|].
    intros out [= <-]; rewrite <- app_assoc; simpl.
    rewrite map_app, flatten_effective_weight.
    do 4 f_equal.
    rewrite concat_map, map_map.
    f_equal; apply map_ext; intros c'; apply flatten_effective_weight.
Qed.

(** X18.  On a discretized network the two histograms of [write_hist] hold the
    same values. *)
Theorem write_hist_discretized (writer : list histogram) (model : Model.t)
  (epoch : nat) (out : list histogram) :
  write_hist writer (Model.discretize model) epoch = Some out ->
  exists v,
    out = writer ++
          [ {| tag := "effective weights"; values := v; global_step := epoch |};
            {| tag := "actual weights"; values := v; global_step := epoch |} ].
Proof.
  unfold write_hist, cat_flat, Model.discretize, Model.apply.
  cbn [Model.network]; rewrite !map_map; cbn [ConcatLayer.linear].
  rewrite (map_ext
             (fun c => flatten (TertiaryLinear.effective_weight
                                  (Discretizable.discretize_weight
                                     (ConcatLayer.linear c))))
             (fun c => flatten (TertiaryLinear.weight
                                  (Discretizable.discretize_weight
                                     (ConcatLayer.linear c)))))
    by (intros c; now rewrite linear_discretized_fixed).
  destruct (map _ (Model.network model)) as [|v0 vs]; [discriminate|].
  intros [= <-]; rewrite <- app_assoc; simpl; eauto.
Qed.

Lemma write_hist_discretized_witness :
  exists m,
    Model.init zero_entropy [4; 3; 2]%nat = Ok m /\
    exists v,
      write_hist [] (Model.discretize m) 7
      = Some ([] ++
              [ {| tag := "effective weights"; values := v; global_step := 7 |};
                {| tag := "actual weights"; values := v; global_step := 7 |} ]).
Proof.
  eexists; split; [reflexivity|].
  destruct (write_hist []
              (Model.discretize
                 {| Model.layer_sizes := [4; 3; 2]%nat;
                    Model.network := Model.layers zero_entropy 0 4 [3; 2]%nat |})
              7) as [out|] eqn:E.
  - destruct (write_hist_discretized _ _ _ _ E) as [v ->].
    exists v; reflexivity.
  - discriminate E.
Defined.

(** ** The shared weight as a common factor of the weights *)

Lemma dot_scaled (s : R) (r : vec) :
  forall w, dot r (map (fun a => a * s) w) = dot r w * s.
Proof.
  unfold dot; induction r as [|x r IH]; intros [|a w]; simpl;
    try (unfold sum; simpl; lra).
  rewrite !sum_cons, IH; lra.
Qed.

(** X19.  With a shared weight of one entry [s], the product of the output
    of the linear layer with the shared weight holds the output of the
    linear layer whose weights are all multiplied by [s] (the layer has no
    bias, so the shared weight acts as one common factor of the weights):
    on an input of rank 3 the two tensors are equal; on an input of rank 2
    the product has rank 3, with a first dimension of size 1 whose single
    slab is the output of the scaled layer. *)
Theorem shared_weight_scales_weights (l : TertiaryLinear.t) (s : R) :
  let n_in := TertiaryLinear.n_in l in
  let n_out := TertiaryLinear.n_out l in
  let scaled :=
    TertiaryLinear.with_weight
      (map (map (fun a => a * s)) (TertiaryLinear.weight l)) l in
  (forall k b d,
      wf_tensor (T3 k b n_in d) ->
      (y <- TertiaryLinear.forward l (T3 k b n_in d) ;; mul_shared y [s])
      = TertiaryLinear.forward scaled (T3 k b n_in d)) /\
  (forall b d,
      exists d',
        TertiaryLinear.forward scaled (T2 b n_in d) = Ok (T2 b n_out d') /\
        (y <- TertiaryLinear.forward l (T2 b n_in d) ;; mul_shared y [s])
        = Ok (T3 1 b n_out [d'])).
Proof.
  cbv zeta.
  assert (E : forall m : list vec,
             map (map (fun a => a * s))
               (map (fun r => map (dot r) (TertiaryLinear.weight l)) m)
             = map (fun r => map (dot r)
                               (map (map (fun a => a * s))
                                  (TertiaryLinear.weight l))) m).
  { intros m; rewrite map_map; apply map_ext; intros r.
    rewrite !map_map; apply map_ext; intros w.
    now rewrite dot_scaled. }
  unfold TertiaryLinear.forward; cbn [width TertiaryLinear.with_weight
    TertiaryLinear.n_in TertiaryLinear.n_out TertiaryLinear.weight].
  rewrite Nat.eqb_refl; cbn [bind map_rows mul_shared length map].
  split.
  - intros k b d [Hl _].
    destruct (Nat.eqb_spec k 1) as [E1|NE]; cbn [Nat.eqb]; f_equal; f_equal.
    + rewrite E1 in Hl.
      destruct d as [|m [|m' d]]; simpl in Hl; try discriminate Hl.
      cbn [map zip_with hd]; now rewrite E.
    + cbn [hd]; rewrite map_map; apply map_ext; intros m; apply E.
  - intros b d; eexists; split; [reflexivity|].
    now rewrite E.
Qed.

Lemma shared_weight_scales_weights_witness :
  let l := TertiaryLinear.mk 2 1 [[1; -1]] [[0; 0]] in
  wf_tensor (T3 1 1 2 [[[3; 4]]]) /\
  (y <- TertiaryLinear.forward l (T3 1 1 2 [[[3; 4]]]) ;; mul_shared y [2])
  = TertiaryLinear.forward
      (TertiaryLinear.with_weight
         (map (map (fun a => a * 2)) (TertiaryLinear.weight l)) l)
      (T3 1 1 2 [[[3; 4]]]).
Proof.
  assert (Hx : wf_tensor (T3 1 1 2 [[[3; 4]]]))
    by (split; [reflexivity|repeat constructor]).
  cbv zeta; split; [exact Hx|].
  apply (proj1 (shared_weight_scales_weights
                  (TertiaryLinear.mk 2 1 [[1; -1]] [[0; 0]]) 2)
           1%nat 1%nat [[[3; 4]]] Hx).
Defined.
